(** * The SQL exercise harness of [test_select_basics.py]

    A shallow embedding of the query-block extractor [load_queries], of the
    [db] fixture and of the guard that opens every test of
    [TestSelectBasics], with the properties the specification states about
    them.

    Python strings are sequences of Unicode code points: a text is a
    [list N].  The [re] module is embedded as a backtracking matcher over the
    fragment of regular expressions that the pattern of [load_queries] uses;
    the pattern itself is a value of that syntax. *)

From Stdlib Require Import ZArith NArith Ascii String.
From stdpp Require Import gmap list strings pretty.

Local Open Scope string_scope.
Local Open Scope list_scope.
Local Open Scope N_scope.

Abbreviation text := (list N).

(** The code points of a literal written in the source. *)
Definition py (s : string) : text :=
  map N_of_ascii (list_ascii_of_string s).

(** ['\n'] *)
Definition nl : N := 10.

(** ** Character classes *)

(** [Py_UNICODE_ISSPACE]: what [str.strip()] removes and what [\s] matches on
    a [str] pattern. *)
Definition is_space (c : N) : bool :=
  ((9 <=? c) && (c <=? 13)) || ((28 <=? c) && (c <=? 32))
  || (c =? 133) || (c =? 160) || (c =? 5760)
  || ((8192 <=? c) && (c <=? 8202))
  || (c =? 8232) || (c =? 8233) || (c =? 8239) || (c =? 8287)
  || (c =? 12288).

(** The word characters of the ASCII range: letters, digits, underscore. *)
Definition ascii_word (c : N) : bool :=
  ((48 <=? c) && (c <=? 57)) || ((65 <=? c) && (c <=? 90))
  || (c =? 95) || ((97 <=? c) && (c <=? 122)).

(** ** Regular expressions: the fragment used by the harness *)

Inductive cls := Word | Space | AnyChar.
Inductive greed := Greedy | Lazy.

Inductive regex :=
| Lit (c : N)                    (* a literal character *)
| Cat (r1 r2 : regex)            (* r1 r2 *)
| Alt (r1 r2 : regex)            (* r1|r2 *)
| Star (g : greed) (p : cls)     (* p* and p*? *)
| Plus (g : greed) (p : cls)     (* p+ and p+? *)
| Group (i : nat) (r : regex)    (* the i-th capturing group *)
| Ahead (r : regex)              (* (?=r) *)
| Dollar.                        (* $ without re.MULTILINE *)

(** A literal string is the concatenation of its characters. *)
Fixpoint lit (s : text) (r : regex) : regex :=
  match s with
  | [] => r
  | c :: s' => Cat (Lit c) (lit s' r)
  end.

(** [$] matches at the end of the string and just before a newline that ends
    the string. *)
Definition at_end (s : text) : bool :=
  match s with
  | [] => true
  | [c] => c =? nl
  | _ => false
  end.

(** What a group captured: the part of [s] consumed down to the suffix [s']. *)
Definition consumed (s s' : text) : text :=
  take (length s - length s') s.

(** The part of the Unicode database that [\w] reads outside ASCII
    ([Py_UNICODE_ISALNUM]); it belongs to the interpreter, not to the
    repository. *)
Class Unicode := { uni_alnum : N → bool }.

Section Extractor.
Context `{Unicode}.

(** [\w] on a [str] pattern. *)
Definition is_word (c : N) : bool :=
  if c <? 128 then ascii_word c else uni_alnum c.

(** Under [re.DOTALL] the dot matches every character, newline included. *)
Definition in_cls (p : cls) (c : N) : bool :=
  match p with
  | Word => is_word c
  | Space => is_space c
  | AnyChar => true
  end.

Section Quantifiers.
Context {A : Type}.

(** [p*]: take as many characters as possible, then give them back one at a
    time until the rest of the pattern [k] matches. *)
Fixpoint star_greedy (p : N → bool) (s : text) (k : text → option A) : option A :=
  match s with
  | c :: s' =>
      if p c then
        match star_greedy p s' k with
        | Some res => Some res
        | None => k s
        end
      else k s
  | [] => k []
  end.

(** [p*?]: try the rest of the pattern first, take one more character only
    when it fails. *)
Fixpoint star_lazy (p : N → bool) (s : text) (k : text → option A) : option A :=
  match k s with
  | Some res => Some res
  | None =>
      match s with
      | c :: s' => if p c then star_lazy p s' k else None
      | [] => None
      end
  end.

Definition star (g : greed) (p : N → bool) (s : text) (k : text → option A) : option A :=
  match g with
  | Greedy => star_greedy p s k
  | Lazy => star_lazy p s k
  end.

End Quantifiers.

(** The state of a match: the text still to read and the groups captured. *)
Definition mstate : Type := text * gmap nat text.

(** [rmatch r s caps k]: match [r] at the head of [s], then the rest of the
    pattern [k]; the alternatives are tried in the order of a backtracking
    matcher and the first success is the result. *)
Fixpoint rmatch (r : regex) (s : text) (caps : gmap nat text)
    (k : text → gmap nat text → option mstate) : option mstate :=
  match r with
  | Lit c =>
      match s with
      | c' :: s' => if c =? c' then k s' caps else None
      | [] => None
      end
  | Cat r1 r2 => rmatch r1 s caps (λ s1 caps1, rmatch r2 s1 caps1 k)
  | Alt r1 r2 =>
      match rmatch r1 s caps k with
      | Some res => Some res
      | None => rmatch r2 s caps k
      end
  | Star g p => star g (in_cls p) s (λ s', k s' caps)
  | Plus g p =>
      match s with
      | c :: s' => if in_cls p c then star g (in_cls p) s' (λ s'', k s'' caps) else None
      | [] => None
      end
  | Group i r => rmatch r s caps (λ s' caps', k s' (<[i := consumed s s']> caps'))
  | Ahead r =>
      match rmatch r s caps (λ s' caps', Some (s', caps')) with
      | Some (_, caps') => k s caps'
      | None => None
      end
  | Dollar => if at_end s then k s caps else None
  end.

(** One attempt of the pattern at the head of [s]. *)
Definition match_here (r : regex) (s : text) : option mstate :=
  rmatch r s ∅ (λ s' caps, Some (s', caps)).

(** The scan of [re.findall]: the matches from left to right, none
    overlapping.  [skip] counts the characters of the last match still to
    pass over; after an empty match the scan moves on by one character. *)
Fixpoint scan (r : regex) (skip : nat) (s : text) : list (gmap nat text) :=
  match skip with
  | S n =>
      match s with
      | [] => []
      | _ :: s' => scan r n s'
      end
  | O =>
      match match_here r s with
      | Some (rest, caps) =>
          caps :: match s with
                  | [] => []
                  | _ :: s' => scan r (length s - length rest - 1) s'
                  end
      | None =>
          match s with
          | [] => []
          | _ :: s' => scan r 0 s'
          end
      end
  end.

(** The text of group [i]; a group that took no part in the match reads as
    the empty string. *)
Definition group (i : nat) (caps : gmap nat text) : text :=
  default [] (caps !! i).

(** [re.findall] for a pattern with two groups: a list of pairs. *)
Definition findall (r : regex) (s : text) : list (text * text) :=
  (λ caps, (group 1 caps, group 2 caps)) <$> scan r 0 s.

(** ** [load_queries] *)

(** [r'-- Query: (\w+)\s*\n(.*?)(?=-- Query:|$)'] with [re.DOTALL]. *)
Definition pattern : regex :=
  lit (py "-- Query: ")
    (Cat (Group 1 (Plus Greedy Word))
    (Cat (Star Greedy Space)
    (Cat (Lit nl)
    (Cat (Group 2 (Star Lazy AnyChar))
         (Ahead (Alt (lit (py "-- Query") (Lit 58)) Dollar)))))).

(** [str.strip()] *)
Fixpoint lstrip (s : text) : text :=
  match s with
  | c :: s' => if is_space c then lstrip s' else s
  | [] => []
  end.

Definition rstrip (s : text) : text := reverse (lstrip (reverse s)).

Definition strip (s : text) : text := rstrip (lstrip s).

(** [str.split('\n')] *)
Fixpoint split_nl (s : text) : list text :=
  match s with
  | [] => [[]]
  | c :: s' =>
      if c =? nl then [] :: split_nl s'
      else match split_nl s' with
           | l :: ls => (c :: l) :: ls
           | [] => [[c]]
           end
  end.

(** ['\n'.join(lines)] *)
Fixpoint join_nl (lines : list text) : text :=
  match lines with
  | [] => []
  | [l] => l
  | l :: ls => l ++ nl :: join_nl ls
  end.

(** [s.startswith(p)] *)
Fixpoint startswith (p s : text) : bool :=
  match p, s with
  | [], _ => true
  | a :: p', b :: s' => (a =? b) && startswith p' s'
  | _ :: _, [] => false
  end.

(** The truth value of a string: it is not empty. *)
Definition truthy (s : text) : bool :=
  match s with
  | [] => false
  | _ => true
  end.

(** The test of the inner loop: [stripped and not stripped.startswith('--')]. *)
Definition keep_line (line : text) : bool :=
  let stripped := strip line in
  truthy stripped && negb (startswith (py "--") stripped).

(** The body of the outer loop up to the text of the query. *)
Definition clean (query_block : text) : text :=
  strip (join_nl (filter (λ line, keep_line line = true) (split_nl (strip query_block)))).

(** [if query and query != 'pass'] *)
Definition implemented (query : text) : bool :=
  truthy query && negb (bool_decide (query = py "pass")).

(** One turn of the outer loop. *)
Definition store (queries : gmap text text) (m : text * text) : gmap text text :=
  let query := clean m.2 in
  if implemented query then <[m.1 := query]> queries else queries.

(** The parsing step of [load_queries], from the content of the file on. *)
Definition parse_queries (content : text) : gmap text text :=
  foldl store ∅ (findall pattern content).

End Extractor.

(** ** Exceptions, the file system and the connections *)

Inductive exn :=
| FileNotFoundError (path : string)
| AssertionError (message : text)
| KeyError (key : text)
| OperationalError (message : string)
| IntegrityError (message : string)
| ProgrammingError (message : string).

Inductive outcome (A : Type) :=
| Ok (a : A)
| Raise (e : exn).
Arguments Ok {A} a.
Arguments Raise {A} e.

(** A value stored in a row; [VReal d p] is the decimal literal [d / 10^p]. *)
Inductive value :=
| VNull
| VInt (n : Z)
| VReal (digits : Z) (places : nat)
| VText (s : string).

#[global] Instance value_eq_dec : EqDecision value.
Proof. solve_decision. Defined.

Inductive affinity := INTEGER | TEXT | REAL.

Record column := Column {
  col_name : string;
  col_type : affinity;
  primary_key : bool;
  not_null : bool;
  default_value : option value
}.

Record table := Table {
  columns : list column;
  rows : list (list value)
}.

(** The two statement forms of [SCHEMA] and [SAMPLE_DATA]. *)
Inductive stmt :=
| CreateTable (name : string) (cols : list column)
| InsertInto (name : string) (cols : list string) (tuples : list (list value)).

(** A connection to an in-memory database: its tables, and whether it has
    been closed. *)
Record connection := Connection {
  contents : gmap string table;
  is_open : bool
}.

(** What a run of the harness reads and writes: the files next to the test
    module and the connections made so far, by handle. *)
Record world := World {
  files : gmap string text;
  connections : gmap nat connection
}.

(** Computations of the harness: they read and change the world and either
    return or raise. *)
Definition M (A : Type) : Type := world → outcome A * world.

#[global] Instance M_ret : MRet M := λ A a w, (Ok a, w).
#[global] Instance M_bind : MBind M := λ A B f m w,
  match m w with
  | (Ok a, w') => f a w'
  | (Raise e, w') => (Raise e, w')
  end.

Definition raise {A : Type} (e : exn) : M A := λ w, (Raise e, w).

(** ** The database engine on the statements of the fixture *)

Definition create_table (name : string) (cols : list column)
    (db : gmap string table) : outcome (gmap string table) :=
  match db !! name with
  | Some _ => Raise (OperationalError "table already exists")
  | None => Ok (<[name := Table cols []]> db)
  end.

(** The value a tuple gives to the column [c]. *)
Fixpoint given (cols : list string) (vals : list value) (c : string) : option value :=
  match cols, vals with
  | c' :: cols', v :: vals' => if bool_decide (c' = c) then Some v else given cols' vals' c
  | _, _ => None
  end.

(** The stored row: a value for every column of the table, the default of
    the column where the tuple gives none. *)
Definition full_row (t : table) (cols : list string) (vals : list value) : list value :=
  map (λ c, default (default VNull (default_value c)) (given cols vals (col_name c)))
      (columns t).

Definition not_null_ok (t : table) (row : list value) : bool :=
  forallb (λ cv, negb (not_null cv.1 && bool_decide (cv.2 = VNull)))
          (zip (columns t) row).

Definition key_of (t : table) (row : list value) : list value :=
  map snd (filter (λ cv, primary_key cv.1 = true) (zip (columns t) row)).

Definition key_free (t : table) (row : list value) : bool :=
  forallb (λ r, negb (bool_decide (key_of t r = key_of t row))) (rows t).

Fixpoint insert_rows (t : table) (cols : list string) (tuples : list (list value))
    : outcome table :=
  match tuples with
  | [] => Ok t
  | vals :: tuples' =>
      if bool_decide (length vals = length cols) then
        let row := full_row t cols vals in
        if not_null_ok t row then
          if key_free t row then
            insert_rows (Table (columns t) (rows t ++ [row])) cols tuples'
          else Raise (IntegrityError "UNIQUE constraint failed")
        else Raise (IntegrityError "NOT NULL constraint failed")
      else Raise (OperationalError "values do not match the columns")
  end.

Definition insert_into (name : string) (cols : list string) (tuples : list (list value))
    (db : gmap string table) : outcome (gmap string table) :=
  match db !! name with
  | None => Raise (OperationalError "no such table")
  | Some t =>
      match insert_rows t cols tuples with
      | Ok t' => Ok (<[name := t']> db)
      | Raise e => Raise e
      end
  end.

Definition exec_stmt (st : stmt) (db : gmap string table) : outcome (gmap string table) :=
  match st with
  | CreateTable name cols => create_table name cols db
  | InsertInto name cols tuples => insert_into name cols tuples db
  end.

(** A script runs its statements in order and stops at the first that fails;
    what the earlier ones did stays. *)
Fixpoint exec_script (script : list stmt) (db : gmap string table)
    : outcome unit * gmap string table :=
  match script with
  | [] => (Ok (), db)
  | st :: script' =>
      match exec_stmt st db with
      | Ok db' => exec_script script' db'
      | Raise e => (Raise e, db)
      end
  end.

(** [sqlite3.connect(':memory:')]: a new handle on an empty database. *)
Definition connect : M nat := λ w,
  let conn := fresh (dom (connections w)) in
  (Ok conn, World (files w) (<[conn := Connection ∅ true]> (connections w))).

(** An operation on a connection needs it open. *)
Definition on_open {A : Type} (conn : nat) (f : connection → M A) : M A := λ w,
  match connections w !! conn with
  | Some c =>
      if is_open c then f c w
      else (Raise (ProgrammingError "Cannot operate on a closed database."), w)
  | None => (Raise (ProgrammingError "Cannot operate on a closed database."), w)
  end.

(** [conn.cursor().executescript(script)] *)
Definition executescript (conn : nat) (script : list stmt) : M unit :=
  on_open conn (λ c w,
    let '(r, db) := exec_script script (contents c) in
    (r, World (files w) (<[conn := Connection db true]> (connections w)))).

(** [conn.commit()]: the scripts have left nothing pending. *)
Definition commit (conn : nat) : M unit :=
  on_open conn (λ _, mret ()).

(** [conn.close()]: the in-memory database goes with the connection; closing
    twice is allowed. *)
Definition close (conn : nat) : M unit := λ w,
  (Ok (), World (files w) (alter (λ _, Connection ∅ false) conn (connections w))).

(** [conn.cursor().execute('SELECT * FROM name').fetchall()] *)
Definition select_all (conn : nat) (name : string) : M (list (list value)) :=
  on_open conn (λ c,
    match contents c !! name with
    | Some t => mret (rows t)
    | None => raise (OperationalError "no such table")
    end).

(** ** The constants and fixtures of the test module *)

(** The columns that [SCHEMA] declares for [products]. *)
Definition products_columns : list column :=
  [ Column "id" INTEGER true false None;
    Column "name" TEXT false true None;
    Column "category" TEXT false true None;
    Column "price" REAL false true None;
    Column "quantity" INTEGER false true None;
    Column "is_active" INTEGER false false (Some (VInt 1)) ].

Definition SCHEMA : list stmt :=
  [ CreateTable "products" products_columns ].

(** The tuples that [SAMPLE_DATA] inserts. *)
Definition sample_rows : list (list value) :=
  [ [VInt 1; VText "Laptop"; VText "Electronics"; VReal 99999 2; VInt 50; VInt 1];
    [VInt 2; VText "Mouse"; VText "Electronics"; VReal 2999 2; VInt 200; VInt 1];
    [VInt 3; VText "Keyboard"; VText "Electronics"; VReal 7999 2; VInt 150; VInt 1];
    [VInt 4; VText "Desk Chair"; VText "Furniture"; VReal 29999 2; VInt 30; VInt 1];
    [VInt 5; VText "Standing Desk"; VText "Furniture"; VReal 59999 2; VInt 20; VInt 0];
    [VInt 6; VText "Monitor"; VText "Electronics"; VReal 39999 2; VInt 75; VInt 1];
    [VInt 7; VText "Webcam"; VText "Electronics"; VReal 8999 2; VInt 100; VInt 1];
    [VInt 8; VText "Bookshelf"; VText "Furniture"; VReal 14999 2; VInt 40; VInt 1] ].

Definition SAMPLE_DATA : list stmt :=
  [ InsertInto "products"
      ["id"; "name"; "category"; "price"; "quantity"; "is_active"]
      sample_rows ].

(** The [db] fixture is a generator: pytest runs it up to its [yield] before
    the test and resumes it after the test.  [db_setup] is the part before
    the [yield], with the connection yielded as its result; [db_teardown] is
    the part after it.  The row factory and the cursor decide how rows are
    handed to the caller, not what the database holds, and have no
    counterpart here. *)
Definition db_setup : M nat :=
  conn ← connect;
  executescript conn SCHEMA;;
  executescript conn SAMPLE_DATA;;
  commit conn;;
  mret conn.

Definition db_teardown (conn : nat) : M unit := close conn.

(** [Path.read_text()] *)
Definition read_text (path : string) : M text := λ w,
  match files w !! path with
  | Some content => (Ok content, w)
  | None => (Raise (FileNotFoundError path), w)
  end.

Section Tests.
Context `{Unicode}.

Definition load_queries : M (gmap text text) :=
  content ← read_text "exercise.sql";
  mret (parse_queries content).

(** The [queries] fixture. *)
Definition queries : M (gmap text text) := load_queries.

(** ** The tests of [TestSelectBasics] *)

(** A test reads one block and fails with its own message without it. *)
Record test_case := Test {
  block : string;
  message : string
}.

#[global] Instance test_case_eq_dec : EqDecision test_case.
Proof. solve_decision. Defined.

Definition test_select_all_columns : test_case :=
  Test "select_all_columns" "Query 'select_all_columns' not found or empty".
Definition test_select_specific_columns : test_case :=
  Test "select_specific_columns" "Query 'select_specific_columns' not found or empty".
Definition test_column_alias : test_case :=
  Test "column_alias" "Query 'column_alias' not found or empty".
Definition test_calculated_column : test_case :=
  Test "calculated_column" "Query 'calculated_column' not found or empty".
Definition test_order_by_price : test_case :=
  Test "order_by_price" "Query 'order_by_price' not found or empty".
Definition test_order_by_multiple : test_case :=
  Test "order_by_multiple" "Query 'order_by_multiple' not found or empty".
Definition test_limit_results : test_case :=
  Test "limit_results" "Query 'limit_results' not found or empty".
Definition test_distinct_categories : test_case :=
  Test "distinct_categories" "Query 'distinct_categories' not found or empty".

Definition TestSelectBasics : list test_case :=
  [ test_select_all_columns; test_select_specific_columns; test_column_alias;
    test_calculated_column; test_order_by_price; test_order_by_multiple;
    test_limit_results; test_distinct_categories ].

(** What a test does once it holds the text of its query: it runs the query
    on the connection and asserts on the rows.  That part depends on the
    whole of SQL and is left open. *)
Variable checks : test_case → nat → text → M unit.

(** The body of a test: [query = queries.get(block)], then
    [assert query, message], then the checks. *)
Definition test_body (t : test_case) (db : nat) (queries : gmap text text) : M unit :=
  match queries !! py (block t) with
  | Some query =>
      if truthy query then checks t db query
      else raise (AssertionError (py (message t)))
  | None => raise (AssertionError (py (message t)))
  end.

(** ** One test under pytest *)

Inductive report :=
| Passed
| Failed (e : exn)       (* the test body raised *)
| SetupError (e : exn).  (* a fixture raised before the test *)

(** pytest sets the fixtures up in the order of the arguments ([db], then
    [queries]), calls the test, and then resumes every generator fixture
    that reached its [yield], whatever the test did.  The autouse fixture of
    [conftest.py] changes the working directory and the import path, which
    neither fixture reads: [load_queries] finds its file next to the
    module. *)
Definition pytest_run (body : nat → gmap text text → M unit) (w : world)
    : report * world :=
  match db_setup w with
  | (Raise e, w1) => (SetupError e, w1)
  | (Ok conn, w1) =>
      match queries w1 with
      | (Raise e, w2) => (SetupError e, (db_teardown conn w2).2)
      | (Ok qs, w2) =>
          let '(r, w3) := body conn qs w2 in
          (match r with Ok _ => Passed | Raise e => Failed e end,
           (db_teardown conn w3).2)
      end
  end.

End Tests.

(** [needle in haystack] *)
Fixpoint contains (needle haystack : text) : bool :=
  startswith needle haystack ||
  match haystack with
  | [] => false
  | _ :: rest => contains needle rest
  end.

(** The Unicode database on the ASCII range alone: no code point from 128 on
    is alphanumeric.  It is the table to evaluate ASCII texts with, on which
    the database is never consulted. *)
Definition ascii_only : Unicode := {| uni_alnum := λ _, false |}.

(** ** The assertions of two tests on the rows fetched *)

(** A row as [sqlite3.Row] shows it: the names of the columns, each with its
    value. *)
Abbreviation result_row := (list (string * value)).

(** How a run of assertions ends: all hold, one fails (with its message, if
    the statement has one), or an index is out of range. *)
Inductive verdict :=
| Pass
| AssertionFailed (message : option text)
| IndexFailed.

(** [assert cond, message], then the statements that follow. *)
Definition check (cond : bool) (message : option text) (next : verdict) : verdict :=
  if cond then next else AssertionFailed message.

(** [test_select_all_columns], from [results = cursor.fetchall()] on. *)
Definition select_all_columns_asserts (results : list result_row) : verdict :=
  check (bool_decide (length results = 8%nat))
        (Some (py "Expected 8 rows, got " ++ py (pretty (length results)))) $
  match results with
  | [] => IndexFailed
  | first :: _ =>
      check (bool_decide (length first.*1 = 6%nat)) (Some (py "Should have 6 columns")) $
      let columns := first.*1 in
      check (bool_decide ("id" ∈ columns)) None $
      check (bool_decide ("name" ∈ columns)) None $
      check (bool_decide ("category" ∈ columns)) None $
      check (bool_decide ("price" ∈ columns)) None $
      check (bool_decide ("quantity" ∈ columns)) None $
      check (bool_decide ("is_active" ∈ columns)) None Pass
  end.

(** [test_distinct_categories], from [results = cursor.fetchall()] on;
    [r[0]] is the first value of the row. *)
Definition distinct_categories_asserts (results : list result_row) : verdict :=
  check (bool_decide (length results = 2%nat))
        (Some (py "Expected 2 categories, got " ++ py (pretty (length results)))) $
  match mapM (λ r : result_row, head r.*2) results with
  | None => IndexFailed
  | Some categories =>
      check (bool_decide (VText "Electronics" ∈ categories)) None $
      check (bool_decide (VText "Furniture" ∈ categories)) None Pass
  end.

(** ** The reference solutions on lists and dictionaries

    Items and keys are hashable values: a type with decidable equality that
    can be counted.  A dictionary is a [gmap]; where the code walks the
    items of a dictionary, the dictionary is the list of its items in the
    order of insertion. *)

Section DataStructures.
Context `{Countable A}.

(** [counts[item] = counts.get(item, 0) + 1] for every item. *)
Definition count_occurrences (items : list A) : gmap A nat :=
  foldl (λ counts item, <[item := (default 0 (counts !! item) + 1)%nat]> counts) ∅ items.

(** The loop of [remove_duplicates] on [seen] and [result]. *)
Definition remove_duplicates_loop (items : list A) : gset A * list A :=
  foldl (λ '(seen, result) item,
           if decide (item ∈ seen) then (seen, result)
           else ({[item]} ∪ seen, result ++ [item]))
        (∅, []) items.

Definition remove_duplicates (items : list A) : list A :=
  (remove_duplicates_loop items).2.

(** [group_by_key]: a new key gets the empty list, then the item is
    appended to the list of its key. *)
Definition group_by_key {B : Type} (items : list B) (key_func : B → A)
    : gmap A (list B) :=
  foldl (λ groups item,
           let key := key_func item in
           let groups' :=
             match groups !! key with
             | None => <[key := []]> groups
             | Some _ => groups
             end in
           alter (λ group, group ++ [item]) key groups')
        ∅ items.

(** [{v: k for k, v in d.items()}], on the items of [d]. *)
Definition invert_dictionary {B : Type} (d : list (B * A)) : gmap A B :=
  foldl (λ inverted kv, <[kv.2 := kv.1]> inverted) ∅ d.

End DataStructures.

(** [find_maximum] on integers. *)
Definition find_maximum (numbers : list Z) : option Z :=
  match numbers with
  | [] => None
  | first :: rest =>
      Some (foldl (λ maximum num, if (maximum <? num)%Z then num else maximum) first rest)
  end.

(** ** Reading the pattern

    What the pattern does on a text, stated on the text itself; the lemmas
    below derive each from the matcher. *)

(** The lookahead [(?=-- Query:|$)]. *)
Definition ahead (s : text) : bool :=
  startswith (py "-- Query:") s || at_end s.

(** The body [(.*?)] and what follows it: the body ends at the first place
    where the lookahead holds. *)
Fixpoint body_split (s : text) : text * text :=
  if ahead s then ([], s)
  else match s with
       | c :: s' => let '(body, rest) := body_split s' in (c :: body, rest)
       | [] => ([], [])
       end.

(** What [(\w+)\s*\n] leaves to the rest of the pattern, once the marker
    has been read. *)
Definition after_newline (s1 s2 s3 : text) : option mstate :=
  match s3 with
  | c :: s4 =>
      if nl =? c then
        Some ((body_split s4).2,
              <[2%nat := (body_split s4).1]> (<[1%nat := consumed s1 s2]> ∅))
      else None
  | [] => None
  end.

(** A text of white space only. *)
Abbreviation spaces := (Forall (λ c, is_space c = true)).

(** [query and query != 'pass'] fails on exactly two texts. *)
Definition placeholder (query : text) : Prop :=
  query = [] ∨ query = py "pass".

#[global] Instance placeholder_dec (query : text) : Decision (placeholder query).
Proof. unfold placeholder. apply _. Defined.

(** The content left in a database by the two scripts of the fixture. *)
Definition seeded : gmap string table :=
  {[ "products" := Table products_columns sample_rows ]}.

(** ** Sample inputs *)

(** The block [A] with body [SELECT 1;] and the block [B] with body
    [-- comment], [SELECT 2;]. *)
Definition two_blocks : text :=
  py "-- Query: A" ++ nl :: py "SELECT 1;" ++ nl ::
  py "-- Query: B" ++ nl :: py "-- comment" ++ nl :: py "SELECT 2;".

(** A marker in the middle of a line. *)
Definition marker_mid_line : text :=
  py "SELECT 0; -- Query: A" ++ nl :: py "SELECT 1;" ++ [nl].

(** The name [A] twice, both blocks with a query. *)
Definition twice_implemented : text :=
  py "-- Query: A" ++ nl :: py "SELECT 1;" ++ nl ::
  py "-- Query: A" ++ nl :: py "SELECT 2;" ++ [nl].

(** The name [A] twice, the second block left at the placeholder. *)
Definition then_placeholder : text :=
  py "-- Query: A" ++ nl :: py "SELECT 1;" ++ nl ::
  py "-- Query: A" ++ nl :: py "pass" ++ [nl].

(** A query file that leaves [column_alias] at the placeholder. *)
Definition unfinished : text :=
  py "-- Query: select_all_columns" ++ nl :: py "SELECT * FROM products;" ++ nl ::
  py "-- Query: column_alias" ++ nl :: py "-- your query here" ++ nl :: py "pass" ++ [nl].

(** A query file that holds a query for [column_alias]. *)
Definition finished : text :=
  py "-- Query: column_alias" ++ nl :: py "SELECT price AS cost FROM products;" ++ [nl].

(** A test body whose first assertion fails. *)
Definition failing_body : nat → gmap text text → M unit :=
  λ _ _, raise (AssertionError (py "Expected 8 rows, got 0")).

(** A test body that does nothing. *)
Definition idle_body : nat → gmap text text → M unit :=
  λ _ _, mret ().

(** A world with the query file and no connection yet. *)
Definition sample_world (content : text) : world :=
  World {[ "exercise.sql" := content ]} ∅.

(** Checks that pass on every query. *)
Definition no_checks : test_case → nat → text → M unit :=
  λ _ _ _, mret ().

(** ** The matcher on the pattern *)

Section Facts.
Context `{Unicode}.

(** What a test does after its guard. *)
Variable checks : test_case → nat → text → M unit.

Lemma startswith_app (p s : text) : startswith p (p ++ s) = true.
Proof.
  induction p as [|a p IH]; simpl; [done|].
  by rewrite N.eqb_refl, IH.
Qed.

Lemma startswith_inv (p s : text) : startswith p s = true → ∃ s', s = p ++ s'.
Proof.
  revert s. induction p as [|a p IH]; intros s Hs; simpl in *.
  - by exists s.
  - destruct s as [|b s]; [done|].
    apply andb_true_iff in Hs as [Hab Hs]. apply N.eqb_eq in Hab as ->.
    destruct (IH _ Hs) as [s' ->]. by exists s'.
Qed.

Lemma startswith_drop (p s : text) : startswith p s = true → s = p ++ drop (length p) s.
Proof.
  intros [s' ->]%startswith_inv. by rewrite drop_app_length.
Qed.

Lemma rmatch_lit (p : text) (r : regex) s caps k :
  rmatch (lit p r) s caps k =
  if startswith p s then rmatch r (drop (length p) s) caps k else None.
Proof.
  revert s. induction p as [|a p IH]; intros s; simpl; [done|].
  destruct s as [|b s]; simpl; [done|].
  destruct (a =? b); simpl; [apply IH | done].
Qed.

Section Stars.
Context {A : Type}.
Implicit Types (p : N → bool) (k : text → option A).

Lemma star_greedy_sound p s k res :
  star_greedy p s k = Some res →
  ∃ w s', s = w ++ s' ∧ Forall (λ c, p c = true) w ∧ k s' = Some res.
Proof.
  induction s as [|c s IH]; simpl; intros Hres.
  - by exists [], [].
  - destruct (p c) eqn:Hc; [|by exists [], (c :: s)].
    destruct (star_greedy p s k) as [res'|] eqn:Hs.
    + destruct (IH Hres) as (w & s' & -> & Hw & Hk).
      exists (c :: w), s'. by repeat split; [constructor|].
    + by exists [], (c :: s).
Qed.

(** The longest run is tried first. *)
Lemma star_greedy_longest p w s k res :
  Forall (λ c, p c = true) w →
  (∀ c s', s = c :: s' → p c = false) →
  k s = Some res →
  star_greedy p (w ++ s) k = Some res.
Proof.
  intros Hw Hs Hk. induction Hw as [|c w Hc _ IH]; simpl.
  - destruct s as [|c s']; [done|]. simpl. by rewrite (Hs c s').
  - by rewrite Hc, IH.
Qed.

Lemma star_greedy_some p w s k :
  Forall (λ c, p c = true) w → is_Some (k s) → is_Some (star_greedy p (w ++ s) k).
Proof.
  intros Hw Hk. induction Hw as [|c w Hc _ IH]; simpl.
  - destruct s as [|c s']; [done|]. simpl.
    destruct (p c); [|done]. by destruct (star_greedy p s' k).
  - rewrite Hc. by destruct IH as [res ->].
Qed.

Lemma star_greedy_ext p s k k' :
  (∀ s', k s' = k' s') → star_greedy p s k = star_greedy p s k'.
Proof.
  intros Hk. induction s as [|c s IH]; simpl; [done|].
  by rewrite IH, Hk.
Qed.

Lemma star_lazy_ext p s k k' :
  (∀ s', k s' = k' s') → star_lazy p s k = star_lazy p s k'.
Proof.
  intros Hk. induction s as [|c s IH]; simpl; rewrite Hk; [done|].
  by rewrite IH.
Qed.

End Stars.

Lemma consumed_app (a s : text) : consumed (a ++ s) s = a.
Proof.
  unfold consumed. rewrite length_app.
  replace (length a + length s - length s)%nat with (length a) by lia.
  by rewrite take_app_length.
Qed.

Lemma rmatch_lit_last (p : text) (c : N) s caps k :
  rmatch (lit p (Lit c)) s caps k =
  if startswith (p ++ [c]) s then k (drop (S (length p)) s) caps else None.
Proof.
  revert s. induction p as [|a p IH]; intros s; simpl.
  - destruct s as [|b s]; [done|].
    by destruct (c =? b).
  - destruct s as [|b s]; simpl; [done|].
    destruct (a =? b); simpl; [apply IH | done].
Qed.

Lemma ahead_nil : ahead [] = true.
Proof. reflexivity. Qed.

Lemma body_split_eq (s : text) :
  body_split s =
  if ahead s then ([], s)
  else match s with
       | c :: s' => (c :: (body_split s').1, (body_split s').2)
       | [] => ([], [])
       end.
Proof.
  destruct s as [|c s]; [done|].
  cbn [body_split]. by destruct (body_split s).
Qed.

Lemma body_split_app (s : text) : s = (body_split s).1 ++ (body_split s).2.
Proof.
  induction s as [|c s IH]; rewrite body_split_eq; [done|].
  destruct (ahead (c :: s)); simpl; [done|]. by rewrite <- IH.
Qed.

Lemma body_split_ahead (s : text) : ahead (body_split s).2 = true.
Proof.
  induction s as [|c s IH]; rewrite body_split_eq; [done|].
  by destruct (ahead (c :: s)) eqn:Hc.
Qed.

(** Nowhere inside the body does the lookahead hold. *)
Lemma body_split_first (s b1 b2 : text) :
  (body_split s).1 = b1 ++ b2 → b2 ≠ [] → ahead (b2 ++ (body_split s).2) = false.
Proof.
  revert b1. induction s as [|c s IH]; intros b1; rewrite body_split_eq.
  - simpl. intros Hb Hne. by destruct b1, b2.
  - destruct (ahead (c :: s)) eqn:Hc; simpl.
    + intros Hb Hne. by destruct b1, b2.
    + intros Hb Hne. destruct b1 as [|c' b1]; simpl in Hb.
      * subst b2. simpl. by rewrite <- body_split_app.
      * injection Hb as -> Hb. by apply (IH b1).
Qed.

Lemma star_lazy_body {A : Type} (f : text → A) (s : text) :
  star_lazy (λ _, true) s (λ s', if ahead s' then Some (f s') else None)
  = Some (f (body_split s).2).
Proof.
  induction s as [|c s IH]; rewrite body_split_eq.
  - done.
  - cbn [star_lazy]. destruct (ahead (c :: s)); [done|]. by rewrite IH.
Qed.

(** The lookahead of the pattern. *)
Lemma rmatch_lookahead s caps k :
  rmatch (Ahead (Alt (lit (py "-- Query") (Lit 58)) Dollar)) s caps k =
  if ahead s then k s caps else None.
Proof.
  cbn [rmatch]. rewrite rmatch_lit_last. unfold ahead.
  change (py "-- Query" ++ [58]) with (py "-- Query:").
  destruct (startswith (py "-- Query:") s); [done|].
  by destruct (at_end s).
Qed.

(** The body and the lookahead: they match on every text. *)
Lemma rmatch_body s caps :
  rmatch (Cat (Group 2 (Star Lazy AnyChar))
              (Ahead (Alt (lit (py "-- Query") (Lit 58)) Dollar)))
         s caps (λ s' caps', Some (s', caps'))
  = Some ((body_split s).2, <[2%nat := (body_split s).1]> caps).
Proof.
  cbn [rmatch star in_cls].
  rewrite (star_lazy_ext _ _ _
    (λ s', if ahead s' then Some (s', <[2%nat := consumed s s']> caps) else None)).
  2:{ intros s'.
      exact (rmatch_lookahead s' (<[2%nat := consumed s s']> caps)
               (λ s'' caps', Some (s'', caps'))). }
  rewrite (star_lazy_body (λ s', (s', <[2%nat := consumed s s']> caps))).
  by rewrite (body_split_app s) at 2; rewrite consumed_app.
Qed.

(** The pattern, read off the matcher. *)
Lemma match_here_pattern (s : text) :
  match_here pattern s =
  if startswith (py "-- Query: ") s then
    match drop 10 s with
    | c :: s' =>
        if is_word c then
          star_greedy is_word s'
            (λ s2, star_greedy is_space s2 (after_newline (c :: s') s2))
        else None
    | [] => None
    end
  else None.
Proof.
  unfold match_here, pattern. rewrite rmatch_lit.
  destruct (startswith (py "-- Query: ") s); [|done].
  change (length (py "-- Query: ")) with 10%nat.
  destruct (drop 10 s) as [|c s'] eqn:Hs; [done|].
  cbn [rmatch star in_cls]. destruct (is_word c); [|done].
  apply star_greedy_ext. intros s2. apply star_greedy_ext. intros s3.
  unfold after_newline. destruct s3 as [|c' s4]; [done|].
  destruct (nl =? c'); [|done].
  apply rmatch_body.
Qed.

Lemma is_word_nl : is_word nl = false.
Proof. reflexivity. Qed.

Lemma groups_of_match (name body : text) :
  let caps : gmap nat text := <[2%nat := body]> (<[1%nat := name]> ∅) in
  group 1 caps = name ∧ group 2 caps = body.
Proof.
  unfold group. split.
  - by rewrite lookup_insert_ne, lookup_insert_eq.
  - by rewrite lookup_insert_eq.
Qed.

(** Every match of the pattern reads a marker, a name, white space up to a
    newline, and a body. *)
Lemma match_here_inv (s rest : text) (caps : gmap nat text) :
  match_here pattern s = Some (rest, caps) →
  ∃ name ws s4,
    s = py "-- Query: " ++ name ++ ws ++ nl :: s4 ∧
    name ≠ [] ∧
    Forall (λ c, is_word c = true) name ∧
    Forall (λ c, is_space c = true) ws ∧
    rest = (body_split s4).2 ∧
    caps = <[2%nat := (body_split s4).1]> (<[1%nat := name]> ∅).
Proof.
  rewrite match_here_pattern.
  destruct (startswith (py "-- Query: ") s) eqn:Hp; [|done].
  apply startswith_drop in Hp. change (length (py "-- Query: ")) with 10%nat in Hp.
  destruct (drop 10 s) as [|c s'] eqn:Hd; [done|].
  destruct (is_word c) eqn:Hc; [|done].
  intros (w & s2 & -> & Hw & Hk)%star_greedy_sound.
  apply star_greedy_sound in Hk as (ws & s3 & -> & Hws & Hk).
  unfold after_newline in Hk. destruct s3 as [|c' s4]; [done|].
  destruct (nl =? c') eqn:Hnl; [|done]. apply N.eqb_eq in Hnl as <-.
  injection Hk as <- <-.
  exists (c :: w), ws, s4.
  change (c :: w ++ ws ++ nl :: s4) with ((c :: w) ++ ws ++ nl :: s4).
  rewrite consumed_app. repeat split; [done..| |done].
  by constructor.
Qed.

(** A marker followed by a name, white space and a newline is matched, and
    the name is read whole. *)
Lemma match_here_marker (name ws rest : text) :
  name ≠ [] → Forall (λ c, is_word c = true) name →
  Forall (λ c, is_space c = true ∧ is_word c = false) ws →
  ∃ ws' s4,
    ws ++ nl :: rest = ws' ++ nl :: s4 ∧
    spaces ws' ∧
    match_here pattern (py "-- Query: " ++ name ++ ws ++ nl :: rest)
    = Some ((body_split s4).2, <[2%nat := (body_split s4).1]> (<[1%nat := name]> ∅)).
Proof.
  intros Hne Hname Hws. destruct name as [|c w]; [done|]. clear Hne.
  apply Forall_cons in Hname as [Hc Hw].
  rewrite match_here_pattern, startswith_app.
  change 10%nat with (length (py "-- Query: ")). rewrite drop_app_length.
  cbn [app]. rewrite Hc.
  set (tail := ws ++ nl :: rest).
  set (k := λ s2, star_greedy is_space s2 (after_newline (c :: w ++ tail) s2)).
  destruct (star_greedy_some is_space ws (nl :: rest)
              (after_newline (c :: w ++ tail) tail))
    as [res Hres]; [|by eexists|].
  { eapply Forall_impl; [exact Hws|]. by intros ? [? _]. }
  rewrite (star_greedy_longest is_word w tail k res); [|done| |done].
  2:{ unfold tail. intros c' s' Heq. destruct Hws as [|d ws [_ Hd] _].
      - injection Heq as <- _. apply is_word_nl.
      - by injection Heq as <- _. }
  apply star_greedy_sound in Hres as (ws' & s3 & Hsplit & Hws' & Hk).
  unfold after_newline in Hk. destruct s3 as [|c' s4]; [done|].
  destruct (nl =? c') eqn:Hnl; [|done]. apply N.eqb_eq in Hnl as <-.
  injection Hk as <-.
  exists ws', s4. repeat split; [done..|].
  change (c :: w ++ tail) with ((c :: w) ++ tail).
  by rewrite consumed_app.
Qed.

(** ** The scan *)

Lemma scan_sound (r : regex) (skip : nat) (s : text) (caps : gmap nat text) :
  caps ∈ scan r skip s →
  ∃ pre s' rest, s = pre ++ s' ∧ match_here r s' = Some (rest, caps).
Proof.
  revert skip. induction s as [|c s IH]; intros skip Hin.
  - destruct skip; simpl in Hin; [|by apply elem_of_nil in Hin].
    destruct (match_here r []) as [[rest caps0]|] eqn:Hm; [|by apply elem_of_nil in Hin].
    apply list_elem_of_singleton in Hin as ->. by exists [], [], rest.
  - destruct skip as [|n]; simpl in Hin.
    + destruct (match_here r (c :: s)) as [[rest caps0]|] eqn:Hm.
      * apply elem_of_cons in Hin as [->|Hin]; [by exists [], (c :: s), rest|].
        destruct (IH _ Hin) as (pre & s' & rest' & -> & Hm').
        by exists (c :: pre), s', rest'.
      * destruct (IH _ Hin) as (pre & s' & rest' & -> & Hm').
        by exists (c :: pre), s', rest'.
    + destruct (IH _ Hin) as (pre & s' & rest' & -> & Hm').
      by exists (c :: pre), s', rest'.
Qed.

(** Every pair that [findall] returns comes from a marker in the text. *)
Lemma findall_inv (content name body : text) :
  (name, body) ∈ findall pattern content →
  ∃ pre ws s4,
    content = pre ++ py "-- Query: " ++ name ++ ws ++ nl :: s4 ∧
    name ≠ [] ∧
    Forall (λ c, is_word c = true) name ∧
    Forall (λ c, is_space c = true) ws ∧
    body = (body_split s4).1.
Proof.
  unfold findall. intros (caps & [= -> ->] & Hin)%list_elem_of_fmap.
  apply scan_sound in Hin as (pre & s' & rest & -> & Hm).
  apply match_here_inv in Hm as (name & ws & s4 & -> & Hne & Hname & Hws & _ & ->).
  destruct (groups_of_match name (body_split s4).1) as [-> ->].
  by exists pre, ws, s4.
Qed.

Lemma body_split_here (s : text) : ahead s = true → body_split s = ([], s).
Proof. intros Hs. by rewrite body_split_eq, Hs. Qed.

(** The hyphen is neither a word character nor white space. *)
Lemma hyphen_free (name ws : text) :
  Forall (λ c, is_word c = true) name → spaces ws → 45 ∉ name ++ ws ++ [nl].
Proof.
  intros Hname Hws [Hin|[Hin|Hin]%elem_of_app]%elem_of_app.
  - by apply (proj1 (Forall_forall _ _) Hname) in Hin.
  - by apply (proj1 (Forall_forall _ _) Hws) in Hin.
  - by apply list_elem_of_singleton in Hin.
Qed.

(** No proper suffix of the marker starts with two hyphens. *)
Lemma marker_no_overlap (pre j : text) :
  py "-- Query: " = pre ++ 45 :: 45 :: j → pre = [].
Proof.
  change (py "-- Query: ") with [45; 45; 32; 81; 117; 101; 114; 121; 58; 32].
  intros Heq. destruct pre as [|c pre]; [done|]. exfalso.
  do 10 (destruct pre as [|? pre]; [discriminate Heq|]).
  discriminate Heq.
Qed.

(** A match that starts before a marker ends before it. *)
Lemma match_stops_before (pre target rest : text) (caps : gmap nat text) :
  pre ≠ [] →
  startswith (py "-- Query:") target = true →
  match_here pattern (pre ++ target) = Some (rest, caps) →
  ∃ k, rest = k ++ target.
Proof.
  intros Hpre Htarget Hm.
  assert (ahead target = true) as Hahead by (unfold ahead; by rewrite Htarget).
  assert (∃ t, target = 45 :: 45 :: t) as [t Ht].
  { apply startswith_inv in Htarget as [t ->]. by eexists. }
  apply match_here_inv in Hm as (name & ws & s4 & Heq & Hne & Hname & Hws & -> & _).
  pose proof (hyphen_free name ws Hname Hws) as Hfree.
  set (body := (body_split s4).1) in *. set (rest := (body_split s4).2) in *.
  assert (pre ++ target = ((py "-- Query: " ++ name ++ ws ++ [nl]) ++ body) ++ rest) as Hsplit.
  { rewrite Heq, (body_split_app s4). fold body rest.
    by rewrite <- !app_assoc. }
  apply app_eq_inv in Hsplit as [(k & _ & Hk)|(k & Hhead & Hk)]; [by exists k|].
  destruct k as [|c0 k0]; [exists []; by rewrite Hk|]. exfalso.
  apply eq_sym, app_eq_inv in Hhead as [(k' & Hbody & Hk')|(k' & Hhead & Hk')].
  - (* the marker of the target would stand inside the body *)
    subst pre. rename Hk' into Hbody'.
    assert (ahead ((c0 :: k0) ++ rest) = false) as Hno.
    { apply (body_split_first s4 k' (c0 :: k0)); [done|done]. }
    by rewrite <- Hk, Hahead in Hno.
  - (* or inside the marker, the name or the white space before it *)
    destruct k' as [|c1 k1].
    { cbn [app] in Hk'.
      assert (s4 = target) as Hs4.
      { rewrite (body_split_app s4). fold body rest. by rewrite <- Hk', Hk. }
      assert (body = []) as Hnil.
      { unfold body. by rewrite Hs4, (body_split_here _ Hahead). }
      by rewrite Hnil in Hk'. }
    rewrite Hk, Hk' in Ht. cbn [app] in Ht. injection Ht as -> Ht.
    apply eq_sym, app_eq_inv in Hhead as [(j & _ & Hj)|(j & Hj & Hj')].
    + (* after the marker text: the header has no hyphen there *)
      apply Hfree. rewrite Hj. apply elem_of_app. right. apply elem_of_cons. by left.
    + (* inside the marker text: it has no two hyphens but at its start *)
      destruct j as [|a [|b j]]; cbn [app] in Hj'.
      * apply Hfree. rewrite <- Hj'. apply elem_of_cons. by left.
      * injection Hj' as <- ->.
        destruct name as [|c name]; [done|]. cbn [app] in Ht.
        injection Ht as -> _. apply Hfree, elem_of_cons. by left.
      * injection Hj' as <- ->. cbn [app] in Ht. injection Ht as -> _.
        by apply marker_no_overlap in Hj.
Qed.

(** The scan reaches every marker that a match starts at. *)
Lemma scan_reaches (pre target rest : text) (caps : gmap nat text) (skip : nat) :
  startswith (py "-- Query:") target = true →
  match_here pattern target = Some (rest, caps) →
  (skip ≤ length pre)%nat →
  caps ∈ scan pattern skip (pre ++ target).
Proof.
  intros Htarget Hm. revert skip. induction pre as [|c pre IH]; intros skip Hskip.
  - simpl in Hskip. assert (skip = 0%nat) as -> by lia. cbn [app].
    destruct target as [|c t]; [done|]. cbn [scan]. rewrite Hm.
    apply elem_of_cons. by left.
  - destruct skip as [|n]; cbn [app scan].
    + destruct (match_here pattern (c :: pre ++ target)) as [[rest' caps']|] eqn:Hm'.
      * apply elem_of_cons. right. apply IH.
        destruct (match_stops_before (c :: pre) target rest' caps') as [k ->];
          [done..|].
        cbn [length]. rewrite !length_app. lia.
      * apply IH. lia.
    + apply IH. simpl in Hskip. lia.
Qed.

(** ** The loop that fills the mapping *)

Lemma implemented_false (query : text) :
  implemented query = false ↔ placeholder query.
Proof.
  unfold implemented, placeholder. destruct query as [|c q]; simpl.
  - split; [by left|done].
  - rewrite negb_false_iff, bool_decide_eq_true.
    split; [by right|by intros [|]].
Qed.

Lemma implemented_true (query : text) :
  implemented query = true ↔ ¬ placeholder query.
Proof.
  rewrite <- implemented_false. by destruct (implemented query).
Qed.

(** Blocks of a name that hold no query leave its entry as it was. *)
Lemma foldl_store_skip (bs : list (text * text)) (m : gmap text text) (name : text) :
  (∀ body, (name, body) ∈ bs → implemented (clean body) = false) →
  foldl store m bs !! name = m !! name.
Proof.
  revert m. induction bs as [|[name' body'] bs IH]; intros m Hbs; [done|].
  cbn [foldl]. rewrite IH.
  - unfold store; simpl. destruct (implemented (clean body')) eqn:Hi; [|done].
    destruct (decide (name' = name)) as [->|Hne].
    + rewrite Hbs in Hi; [done | apply elem_of_cons; by left].
    + by rewrite lookup_insert_ne.
  - intros body Hin. apply Hbs, elem_of_cons. by right.
Qed.

(** The entry of a name is the query of its last block that holds one. *)
Lemma foldl_store_last (pre post : list (text * text)) (m : gmap text text)
    (name body : text) :
  implemented (clean body) = true →
  (∀ body', (name, body') ∈ post → implemented (clean body') = false) →
  foldl store m (pre ++ (name, body) :: post) !! name = Some (clean body).
Proof.
  intros Hi Hpost. rewrite foldl_app. cbn [foldl].
  rewrite foldl_store_skip by done.
  unfold store; simpl. rewrite Hi. apply lookup_insert_eq.
Qed.

(** Every entry was stored for some block, with the query of that block. *)
Lemma foldl_store_inv (bs : list (text * text)) (m : gmap text text)
    (name query : text) :
  foldl store m bs !! name = Some query →
  m !! name = Some query ∨
  ∃ body, (name, body) ∈ bs ∧ query = clean body ∧ implemented query = true.
Proof.
  revert m. induction bs as [|[name' body'] bs IH]; intros m Hq; [by left|].
  cbn [foldl] in Hq. destruct (IH _ Hq) as [Hm|(body & Hin & -> & Hi)].
  - unfold store in Hm; simpl in Hm.
    destruct (implemented (clean body')) eqn:Hi; [|by left].
    destruct (decide (name' = name)) as [->|Hne].
    + rewrite lookup_insert_eq in Hm. injection Hm as <-.
      right. exists body'. split_and!; [apply elem_of_cons; by left|done..].
    + rewrite lookup_insert_ne in Hm by done. by left.
  - right. exists body. split_and!; [apply elem_of_cons; by right|done..].
Qed.

(** ** Stripping, splitting and joining *)

Lemma lstrip_spec (s : text) : ∃ a, s = a ++ lstrip s ∧ spaces a.
Proof.
  induction s as [|c s (a & IH & Ha)]; [by exists []|].
  simpl. destruct (is_space c) eqn:Hc; [|by exists []].
  exists (c :: a). split; [by rewrite IH at 1|by constructor].
Qed.

Lemma lstrip_head (s : text) (c : N) : head (lstrip s) = Some c → is_space c = false.
Proof.
  induction s as [|c' s IH]; simpl; [done|].
  destruct (is_space c') eqn:Hc; [done|]. by intros [= <-].
Qed.

Lemma lstrip_id (s : text) :
  (∀ c, head s = Some c → is_space c = false) → lstrip s = s.
Proof.
  destruct s as [|c s]; [done|]. intros Hc. simpl. by rewrite (Hc c).
Qed.

Lemma lstrip_idemp (s : text) : lstrip (lstrip s) = lstrip s.
Proof. apply lstrip_id, lstrip_head. Qed.

Lemma lstrip_spaces_app (a s : text) : spaces a → lstrip (a ++ s) = lstrip s.
Proof.
  induction 1 as [|c a Hc _ IH]; [done|]. simpl. by rewrite Hc.
Qed.

Lemma lstrip_app (l t : text) : lstrip l ≠ [] → lstrip (l ++ t) = lstrip l ++ t.
Proof.
  induction l as [|c l IH]; simpl; [done|].
  destruct (is_space c); [apply IH|done].
Qed.

Lemma rstrip_nil : rstrip [] = [].
Proof. reflexivity. Qed.

Lemma rstrip_spec (s : text) : ∃ b, s = rstrip s ++ b ∧ spaces b.
Proof.
  unfold rstrip. destruct (lstrip_spec (reverse s)) as (a & Hs & Ha).
  exists (reverse a). split; [|by apply Forall_reverse].
  by rewrite <- reverse_app, <- Hs, reverse_involutive.
Qed.

Lemma rstrip_last (s : text) (c : N) : last (rstrip s) = Some c → is_space c = false.
Proof.
  unfold rstrip. rewrite last_reverse. apply lstrip_head.
Qed.

Lemma rstrip_app (t l : text) : rstrip l ≠ [] → rstrip (t ++ l) = t ++ rstrip l.
Proof.
  unfold rstrip. intros Hl. rewrite reverse_app, lstrip_app.
  - by rewrite reverse_app, reverse_involutive.
  - intros Hnil. apply Hl. by rewrite Hnil.
Qed.

Lemma rstrip_idemp (s : text) : rstrip (rstrip s) = rstrip s.
Proof.
  unfold rstrip. by rewrite reverse_involutive, lstrip_idemp.
Qed.

(** Stripping on the right keeps a first character that is not white. *)
Lemma rstrip_cons (c : N) (s : text) :
  is_space c = false → ∃ r, rstrip (c :: s) = c :: r.
Proof.
  intros Hc. unfold rstrip. rewrite reverse_cons.
  destruct (lstrip (reverse s)) as [|d r] eqn:Hr.
  - destruct (lstrip_spec (reverse s)) as (a & Hs & Ha). rewrite Hr, app_nil_r in Hs.
    rewrite Hs, lstrip_spaces_app by done. simpl. rewrite Hc. by exists [].
  - rewrite lstrip_app by (by rewrite Hr).
    rewrite Hr, reverse_app, reverse_singleton. by eexists.
Qed.

Lemma rstrip_head (s : text) (c : N) :
  (∀ d, head s = Some d → is_space d = false) →
  head (rstrip s) = Some c → is_space c = false.
Proof.
  destruct s as [|d s]; [done|]. intros Hd.
  destruct (rstrip_cons d s) as [r ->]; [by apply Hd|].
  intros [= <-]. by apply Hd.
Qed.

Lemma lstrip_rstrip (s : text) : lstrip (rstrip s) = rstrip (lstrip s).
Proof.
  destruct (lstrip_spec s) as (a & Hs & Ha).
  destruct (lstrip s) as [|c x] eqn:Hx.
  - rewrite app_nil_r in Hs. subst a.
    destruct (rstrip_spec s) as (b & Hb & _).
    rewrite rstrip_nil. apply (lstrip_spaces_app _ []) in Ha as Hnil.
    rewrite app_nil_r in Hnil. simpl in Hnil.
    assert (spaces (rstrip s)) as Hr.
    { rewrite Hb in Ha. by apply Forall_app in Ha as [? _]. }
    apply (lstrip_spaces_app _ []) in Hr. by rewrite app_nil_r in Hr.
  - assert (is_space c = false) as Hc.
    { apply (lstrip_head s). by rewrite Hx. }
    destruct (rstrip_cons c x Hc) as [r Hr].
    rewrite Hs, rstrip_app by (by rewrite Hr).
    rewrite lstrip_spaces_app by done. rewrite Hr. simpl. by rewrite Hc.
Qed.

Lemma strip_idemp (s : text) : strip (strip s) = strip s.
Proof.
  unfold strip. by rewrite lstrip_rstrip, lstrip_idemp, rstrip_idemp.
Qed.

Lemma strip_lstrip (s : text) : strip (lstrip s) = strip s.
Proof. unfold strip. by rewrite lstrip_idemp. Qed.

Lemma strip_rstrip (s : text) : strip (rstrip s) = strip s.
Proof. unfold strip. by rewrite lstrip_rstrip, rstrip_idemp. Qed.

Lemma strip_head (s : text) (c : N) : head (strip s) = Some c → is_space c = false.
Proof. apply rstrip_head, lstrip_head. Qed.

Lemma strip_last (s : text) (c : N) : last (strip s) = Some c → is_space c = false.
Proof. apply rstrip_last. Qed.

(** A text that strips to something does so from either side. *)
Lemma strip_nonempty (s : text) : strip s ≠ [] → lstrip s ≠ [] ∧ rstrip s ≠ [].
Proof.
  intros Hs. split.
  - intros Hl. apply Hs. unfold strip. by rewrite Hl.
  - intros Hr. apply Hs. unfold strip. by rewrite <- lstrip_rstrip, Hr.
Qed.

Lemma split_nl_nonempty (s : text) : split_nl s ≠ [].
Proof.
  induction s as [|c s IH]; simpl; [done|].
  destruct (c =? nl); [done|]. by destruct (split_nl s).
Qed.

Lemma split_nl_lines (s : text) : Forall (λ l, nl ∉ l) (split_nl s).
Proof.
  induction s as [|c s IH]; simpl.
  - constructor; [apply not_elem_of_nil|done].
  - destruct (c =? nl) eqn:Hc.
    + constructor; [apply not_elem_of_nil|done].
    + apply N.eqb_neq in Hc.
      destruct (split_nl s) as [|l ls] eqn:Hs; [by destruct (split_nl_nonempty s)|].
      apply Forall_cons in IH as [Hl Hls]. constructor; [|done].
      apply not_elem_of_cons. by split.
Qed.

Lemma split_nl_line (l : text) : nl ∉ l → split_nl l = [l].
Proof.
  induction l as [|c l IH]; [done|]. intros [Hc Hl]%not_elem_of_cons.
  simpl. apply not_eq_sym, N.eqb_neq in Hc as ->. by rewrite IH.
Qed.

Lemma split_nl_app (l t : text) : nl ∉ l → split_nl (l ++ nl :: t) = l :: split_nl t.
Proof.
  induction l as [|c l IH]; [done|]. intros [Hc Hl]%not_elem_of_cons.
  simpl. apply not_eq_sym, N.eqb_neq in Hc as ->. by rewrite IH.
Qed.

Lemma join_nl_cons (l : text) (ls : list text) :
  ls ≠ [] → join_nl (l :: ls) = l ++ nl :: join_nl ls.
Proof. by destruct ls. Qed.

Lemma join_nl_snoc (ls : list text) (l : text) :
  ls ≠ [] → join_nl (ls ++ [l]) = join_nl ls ++ nl :: l.
Proof.
  induction ls as [|l' ls IH]; [done|]. intros _.
  destruct ls as [|l'' ls]; [done|].
  change ((l' :: l'' :: ls) ++ [l]) with (l' :: ((l'' :: ls) ++ [l])).
  rewrite join_nl_cons by done. rewrite IH by done.
  rewrite (join_nl_cons l') by done. by rewrite <- app_assoc.
Qed.

Lemma split_join (ls : list text) :
  ls ≠ [] → Forall (λ l, nl ∉ l) ls → split_nl (join_nl ls) = ls.
Proof.
  induction ls as [|l ls IH]; [done|]. intros _ [Hl Hls]%Forall_cons.
  destruct ls as [|l' ls]; [by apply split_nl_line|].
  rewrite join_nl_cons by done. rewrite split_nl_app by done.
  by rewrite IH.
Qed.

Lemma lstrip_no_nl (l : text) : nl ∉ l → nl ∉ lstrip l.
Proof.
  destruct (lstrip_spec l) as (a & Hl & _). rewrite Hl at 1.
  by intros [_ ?]%not_elem_of_app.
Qed.

Lemma rstrip_no_nl (l : text) : nl ∉ l → nl ∉ rstrip l.
Proof.
  destruct (rstrip_spec l) as (b & Hl & _). rewrite Hl at 1.
  by intros [? _]%not_elem_of_app.
Qed.

(** The lines of a stripped join are the lines joined, the first stripped on
    the left and the last on the right: a property of the stripped form of
    every line joined holds of every line of the result. *)
Lemma strip_join_lines (Q : text → Prop) (ls : list text) :
  ls ≠ [] →
  Forall (λ l, nl ∉ l) ls →
  Forall (λ l, strip l ≠ []) ls →
  Forall (λ l, Q (strip l)) ls →
  Forall (λ l, Q (strip l)) (split_nl (strip (join_nl ls))).
Proof.
  destruct ls as [|l1 ls]; [done|]. intros _.
  destruct ls as [|lk mid _] using rev_ind.
  - intros [Hnl _]%Forall_cons [Hne _]%Forall_cons [HQ _]%Forall_cons.
    cbn [join_nl]. rewrite split_nl_line.
    + constructor; [by rewrite strip_idemp|done].
    + by apply rstrip_no_nl, lstrip_no_nl.
  - intros [Hnl1 [Hnlm [Hnlk _]%Forall_cons]%Forall_app]%Forall_cons.
    intros [Hne1 [_ [Hnek _]%Forall_cons]%Forall_app]%Forall_cons.
    intros [HQ1 [HQm [HQk _]%Forall_cons]%Forall_app]%Forall_cons.
    apply strip_nonempty in Hne1 as [Hne1 _].
    apply strip_nonempty in Hnek as [_ Hnek].
    assert (mid ++ [lk] ≠ []) as Hmid by (by destruct mid).
    assert (strip (join_nl (l1 :: mid ++ [lk]))
            = join_nl ((lstrip l1 :: mid) ++ [rstrip lk])) as ->.
    { unfold strip. rewrite join_nl_cons, lstrip_app by done.
      rewrite <- join_nl_cons by done.
      change (lstrip l1 :: mid ++ [lk]) with ((lstrip l1 :: mid) ++ [lk]).
      rewrite !join_nl_snoc by done.
      change (nl :: lk) with ([nl] ++ lk). rewrite app_assoc, rstrip_app by done.
      by rewrite <- app_assoc. }
    rewrite split_join.
    + apply Forall_app. split; [constructor|repeat constructor].
      * by rewrite strip_lstrip.
      * done.
      * by rewrite strip_rstrip.
    + by destruct mid.
    + apply Forall_app. split; [constructor|repeat constructor].
      * by apply lstrip_no_nl.
      * done.
      * by apply rstrip_no_nl.
Qed.

Lemma truthy_true (s : text) : truthy s = true ↔ s ≠ [].
Proof. by destruct s. Qed.

Lemma keep_line_true (line : text) :
  keep_line line = true ↔
  strip line ≠ [] ∧ startswith (py "--") (strip line) = false.
Proof.
  unfold keep_line. cbv zeta.
  by rewrite andb_true_iff, truthy_true, negb_true_iff.
Qed.

(** A query that is not empty has no blank line and no comment line. *)
Lemma clean_lines (query_block : text) :
  clean query_block ≠ [] →
  Forall (λ line, strip line ≠ [] ∧ startswith (py "--") (strip line) = false)
         (split_nl (clean query_block)).
Proof.
  unfold clean.
  set (ls := filter (λ line, keep_line line = true) (split_nl (strip query_block))).
  intros Hne.
  assert (Forall (λ l, keep_line l = true) ls) as Hkeep.
  { apply Forall_forall. by intros l [? _]%list_elem_of_filter. }
  apply (strip_join_lines
           (λ l, l ≠ [] ∧ startswith (py "--") l = false) ls).
  - intros Hnil. by rewrite Hnil in Hne.
  - apply Forall_forall. intros l [_ Hl]%list_elem_of_filter.
    by apply (proj1 (Forall_forall _ _) (split_nl_lines (strip query_block))).
  - eapply Forall_impl; [exact Hkeep|]. by intros l [? _]%keep_line_true.
  - eapply Forall_impl; [exact Hkeep|]. by intros l ?%keep_line_true.
Qed.

(** ** The fixture and the runner *)

Lemma schema_script : exec_script SCHEMA ∅ = (Ok (), {[ "products" := Table products_columns [] ]}).
Proof. by vm_compute. Qed.

Lemma sample_script :
  exec_script SAMPLE_DATA {[ "products" := Table products_columns [] ]} = (Ok (), seeded).
Proof. by vm_compute. Qed.

(** The fixture sets up on every world: it yields a handle that was not in
    use, on a database with the seeded content, and touches nothing else. *)
Lemma db_setup_ok (w : world) :
  let conn := fresh (dom (connections w)) in
  connections w !! conn = None ∧
  db_setup w =
    (Ok conn, World (files w) (<[conn := Connection seeded true]> (connections w))).
Proof.
  intros conn.
  assert (connections w !! conn = None) as Hfresh.
  { apply not_elem_of_dom, is_fresh. }
  split; [done|].
  unfold db_setup, mbind, M_bind, connect. fold conn.
  unfold executescript, commit, on_open; cbn [connections files].
  rewrite lookup_insert_eq; cbn [is_open contents].
  rewrite schema_script; cbn [connections files].
  rewrite lookup_insert_eq; cbn [is_open contents].
  rewrite sample_script; cbn [connections files].
  rewrite lookup_insert_eq; cbn [is_open contents].
  unfold mret, M_ret. by rewrite !insert_insert_eq.
Qed.

Lemma load_queries_eq (w : world) :
  load_queries w =
  match files w !! "exercise.sql" with
  | Some content => (Ok (parse_queries content), w)
  | None => (Raise (FileNotFoundError "exercise.sql"), w)
  end.
Proof.
  unfold load_queries, mbind, M_bind, read_text.
  by destruct (files w !! "exercise.sql").
Qed.

(** ** The properties of the specification *)

(** C1 (amended).  Take a block whose name no other block of the text bears.
    When its body, with the comment and blank lines discarded and the
    surrounding white space trimmed, is empty or is the placeholder [pass],
    the returned mapping has no entry for the block; otherwise the mapping
    binds the name of the block to that cleaned text. *)
Theorem unique_block_entry (content : text) (pre post : list (text * text))
    (name body : text) :
  findall pattern content = pre ++ (name, body) :: post →
  name ∉ (pre ++ post).*1 →
  (placeholder (clean body) → parse_queries content !! name = None) ∧
  (¬ placeholder (clean body) → parse_queries content !! name = Some (clean body)).
Proof.
  intros Hblocks Hfresh. unfold parse_queries. rewrite Hblocks.
  rewrite fmap_app in Hfresh. apply not_elem_of_app in Hfresh as [Hpre Hpost].
  assert (∀ l : list (text * text), name ∉ l.*1 → ∀ b, (name, b) ∉ l) as Hno.
  { intros l Hl b Hin. apply Hl, list_elem_of_fmap. by exists (name, b). }
  split.
  - intros Hp%implemented_false. rewrite foldl_store_skip; [done|].
    intros body' [Hin|[[= ->]|Hin]%elem_of_cons]%elem_of_app; [|done|].
    + by destruct (Hno pre Hpre body').
    + by destruct (Hno post Hpost body').
  - intros Hp%implemented_true. apply foldl_store_last; [done|].
    intros body' Hin. by destruct (Hno post Hpost body').
Qed.

(** C2 (amended).  A marker need not begin a line.  Every block that the
    extractor returns was read at an occurrence of [-- Query: ] followed by
    its name, white space and a newline, wherever in the text that
    occurrence stands, and its body runs from that newline to the next
    occurrence of [-- Query:], anywhere in a line, or to the end of the text,
    a final newline left out.  And every such occurrence starts a block of
    that name, whatever precedes it in the text. *)
Theorem marker_anywhere :
  (∀ content name body : text,
     (name, body) ∈ findall pattern content →
     ∃ pre ws post,
       content = pre ++ py "-- Query: " ++ name ++ ws ++ nl :: body ++ post ∧
       spaces ws ∧
       (post = [] ∨ post = [nl] ∨ startswith (py "-- Query:") post = true) ∧
       (∀ b1 b2, body = b1 ++ b2 → b2 ≠ [] →
                 startswith (py "-- Query:") (b2 ++ post) = false)) ∧
  (∀ pre name ws rest : text,
     name ≠ [] →
     Forall (λ c, is_word c = true) name →
     Forall (λ c, is_space c = true ∧ is_word c = false) ws →
     ∃ ws' body post,
       ws ++ nl :: rest = ws' ++ nl :: body ++ post ∧
       spaces ws' ∧
       (name, body) ∈ findall pattern (pre ++ py "-- Query: " ++ name ++ ws ++ nl :: rest)).
Proof.
  split.
  - intros content name body (pre & ws & s4 & -> & _ & _ & Hws & ->)%findall_inv.
    exists pre, ws, (body_split s4).2. rewrite <- body_split_app.
    split_and!; [done..| |].
    + pose proof (body_split_ahead s4) as Ha. unfold ahead in Ha.
      apply orb_true_iff in Ha as [Ha|Ha]; [by right; right|].
      destruct (body_split s4).2 as [|c [|c' r]]; [by left| |done].
      apply N.eqb_eq in Ha as ->. by right; left.
    + intros b1 b2 Hb Hne. pose proof (body_split_first s4 b1 b2 Hb Hne) as Ha.
      unfold ahead in Ha. by apply orb_false_iff in Ha as [Ha _].
  - intros pre name ws rest Hne Hname Hws.
    destruct (match_here_marker name ws rest Hne Hname Hws)
      as (ws' & s4 & Hsplit & Hws' & Hm).
    exists ws', (body_split s4).1, (body_split s4).2.
    rewrite <- body_split_app. split_and!; [done..|].
    apply (scan_reaches pre _ _ _ 0%nat) in Hm; [| |lia].
    + unfold findall. apply list_elem_of_fmap. eexists. split; [|exact Hm].
      by destruct (groups_of_match name (body_split s4).1) as [-> ->].
    + change (py "-- Query: ") with (py "-- Query:" ++ [32]).
      rewrite <- app_assoc. apply startswith_app.
Qed.

(** C3.  On the text with the block [A] of body [SELECT 1;] and the block
    [B] of body [-- comment] then [SELECT 2;], with or without a newline at
    its end, the extractor returns exactly the mapping of [A] to [SELECT 1;]
    and of [B] to [SELECT 2;]. *)
Theorem two_blocks_extracted :
  parse_queries two_blocks = {[ py "A" := py "SELECT 1;"; py "B" := py "SELECT 2;" ]} ∧
  parse_queries (two_blocks ++ [nl])
  = {[ py "A" := py "SELECT 1;"; py "B" := py "SELECT 2;" ]}.
Proof. split; by vm_compute. Qed.

(** C4.  In every entry of the mapping returned for any text, the value
    neither starts nor ends with white space, and none of its lines is blank
    or starts, once stripped, with the comment prefix [--]. *)
Theorem entry_text_clean (content name query : text) :
  parse_queries content !! name = Some query →
  (∀ c, head query = Some c → is_space c = false) ∧
  (∀ c, last query = Some c → is_space c = false) ∧
  Forall (λ line, strip line ≠ [] ∧ startswith (py "--") (strip line) = false)
         (split_nl query).
Proof.
  intros [Hq|(body & _ & -> & Hi)]%foldl_store_inv; [by rewrite lookup_empty in Hq|].
  split_and!.
  - apply strip_head.
  - apply strip_last.
  - apply clean_lines. intros Hnil. by rewrite Hnil in Hi.
Qed.

(** C5 (amended).  When several blocks bear the same name, the mapping binds
    the name to the cleaned body of the last of them whose cleaned body is
    neither empty nor the placeholder; the blocks before it are discarded
    without notice. *)
Theorem last_implemented_block_wins (content : text) (pre post : list (text * text))
    (name body : text) :
  findall pattern content = pre ++ (name, body) :: post →
  ¬ placeholder (clean body) →
  (∀ body', (name, body') ∈ post → placeholder (clean body')) →
  parse_queries content !! name = Some (clean body).
Proof.
  intros Hblocks Hi%implemented_true Hpost. unfold parse_queries. rewrite Hblocks.
  apply foldl_store_last; [done|].
  intros body' Hin. by apply implemented_false, Hpost.
Qed.

(** C6.  The extractor is a function of the text of the query file alone:
    a run leaves the world as it found it, a second run returns what the
    first returned, and the result is the parse of the content of the file. *)
Theorem load_queries_deterministic (w : world) :
  (load_queries w).2 = w ∧
  (load_queries (load_queries w).2).1 = (load_queries w).1 ∧
  (load_queries w).1 =
    match files w !! "exercise.sql" with
    | Some content => Ok (parse_queries content)
    | None => Raise (FileNotFoundError "exercise.sql")
    end.
Proof.
  assert ((load_queries w).2 = w) as Hw.
  { rewrite load_queries_eq. by destruct (files w !! "exercise.sql"). }
  split_and!; [done|by rewrite Hw|].
  rewrite load_queries_eq. by destruct (files w !! "exercise.sql").
Qed.

(** C7.  When the query file has no block of the name a test needs, or only
    blocks of that name left empty or at the placeholder, the test fails
    with an assertion error, not a lookup error, and the message of the
    assertion contains the name of the block. *)
Theorem missing_block_fails_assertion (t : test_case) (content : text) (w : world) :
  t ∈ TestSelectBasics →
  files w !! "exercise.sql" = Some content →
  (∀ body, (py (block t), body) ∈ findall pattern content → placeholder (clean body)) →
  (pytest_run (test_body checks t) w).1 = Failed (AssertionError (py (message t))) ∧
  contains (py (block t)) (py (message t)) = true.
Proof.
  intros Ht Hfile Hmissing. split.
  - destruct (db_setup_ok w) as [_ Hsetup]. unfold pytest_run. rewrite Hsetup.
    unfold queries. rewrite load_queries_eq. cbn [files]. rewrite Hfile.
    unfold test_body, parse_queries. rewrite foldl_store_skip.
    + by rewrite lookup_empty.
    + intros body Hin. by apply implemented_false, Hmissing.
  - repeat (apply elem_of_cons in Ht as [->|Ht]; [by vm_compute|]).
    by apply elem_of_nil in Ht.
Qed.

(** C8.  From every world the fixture yields a connection that was not in
    use before, on a database whose content is the seeded one; selecting all
    the rows of [products] through it returns the 8 sample rows. *)
Theorem db_fixture_seeded (w : world) :
  ∃ conn w',
    db_setup w = (Ok conn, w') ∧
    connections w !! conn = None ∧
    connections w' !! conn = Some (Connection seeded true) ∧
    ∃ result,
      select_all conn "products" w' = (Ok result, w') ∧
      result = sample_rows ∧ length result = 8%nat.
Proof.
  destruct (db_setup_ok w) as [Hfresh Hsetup].
  eexists _, _. split; [exact Hsetup|]. split; [done|].
  cbn [connections]. rewrite lookup_insert_eq. split; [done|].
  exists sample_rows. split; [|done].
  unfold select_all, on_open. cbn [connections]. by rewrite lookup_insert_eq.
Qed.

(** C9.  The fixture closes the connection it yielded after the test, on
    every way out of the test, an assertion error raised by the body
    included.  For every test body that does not make the handle of its
    connection vanish: the fixture yields a handle not in use before, open on
    the seeded database; pytest runs the body on that handle in that world
    and reports its outcome (or, when the [queries] fixture raises, reports
    the setup error without running the body); the code after the [yield]
    then runs on the world that the body left; and in the world after the
    run the connection is there and closed. *)
Theorem db_fixture_closes (body : nat → gmap text text → M unit) (w : world) :
  (∀ conn qs w0,
     is_Some (connections w0 !! conn) →
     is_Some (connections (body conn qs w0).2 !! conn)) →
  ∃ conn w1,
    db_setup w = (Ok conn, w1) ∧
    connections w !! conn = None ∧
    connections w1 !! conn = Some (Connection seeded true) ∧
    match queries w1 with
    | (Ok qs, _) =>
        let '(r, w3) := body conn qs w1 in
        pytest_run body w =
          (match r with Ok _ => Passed | Raise e => Failed e end,
           (db_teardown conn w3).2)
    | (Raise e, _) =>
        pytest_run body w = (SetupError e, (db_teardown conn w1).2)
    end ∧
    connections (pytest_run body w).2 !! conn = Some (Connection ∅ false).
Proof.
  intros Hframe. destruct (db_setup_ok w) as [Hfresh Hsetup].
  set (conn := fresh (dom (connections w))) in *.
  set (w1 := World (files w) (<[conn := Connection seeded true]> (connections w))) in *.
  assert (connections w1 !! conn = Some (Connection seeded true)) as Hopen.
  { unfold w1. cbn [connections]. apply lookup_insert_eq. }
  assert (∀ w', is_Some (connections w' !! conn) →
                connections (db_teardown conn w').2 !! conn = Some (Connection ∅ false))
    as Hclose.
  { intros w' [c Hc]. unfold db_teardown, close. cbn [snd connections].
    by rewrite lookup_alter_eq, Hc. }
  exists conn, w1. split_and!; [done..| |].
  - unfold pytest_run. rewrite Hsetup. unfold queries. rewrite load_queries_eq.
    destruct (files w1 !! "exercise.sql") as [content|]; [|done].
    by destruct (body conn (parse_queries content) w1) as [r w3].
  - unfold pytest_run. rewrite Hsetup. unfold queries. rewrite load_queries_eq.
    destruct (files w1 !! "exercise.sql") as [content|].
    + pose proof (Hframe conn (parse_queries content) w1) as Hkept.
      destruct (body conn (parse_queries content) w1) as [r w3].
      cbn [snd] in *. apply Hclose, Hkept. by rewrite Hopen.
    + cbn [snd]. apply Hclose. by rewrite Hopen.
Qed.

(** C10.  On every content of the query file the parsing step returns a
    mapping and raises nothing, and every key of the mapping is a word: it
    is not empty and all its characters are word characters. *)
Theorem parse_queries_total (content : text) (w : world) :
  files w !! "exercise.sql" = Some content →
  ∃ qs,
    load_queries w = (Ok qs, w) ∧
    qs = parse_queries content ∧
    ∀ name query, qs !! name = Some query →
                  name ≠ [] ∧ Forall (λ c, is_word c = true) name.
Proof.
  intros Hfile. exists (parse_queries content). split_and!; [|done|].
  - by rewrite load_queries_eq, Hfile.
  - intros name query [Hq|(body & Hin & _)]%foldl_store_inv;
      [by rewrite lookup_empty in Hq|].
    by apply findall_inv in Hin as (_ & _ & _ & _ & Hne & Hname & _).
Qed.

End Facts.

(** ** The properties on the sample inputs *)

(** C1, as stated, fails when a name is borne twice: the first block [A] has
    the cleaned body [SELECT 1;], which is not a placeholder, and the mapping
    does not show it. *)
Lemma shadowed_block_counterexample :
  @findall ascii_only pattern twice_implemented
  = [ (py "A", py "SELECT 1;" ++ [nl]); (py "A", py "SELECT 2;") ] ∧
  clean (py "SELECT 1;" ++ [nl]) = py "SELECT 1;" ∧
  ¬ placeholder (py "SELECT 1;") ∧
  @parse_queries ascii_only twice_implemented !! py "A" ≠ Some (py "SELECT 1;").
Proof.
  split_and!; [by vm_compute..| |by vm_compute].
  by intros [|].
Qed.

Lemma unique_block_entry_witness :
  @parse_queries ascii_only two_blocks !! py "A" = Some (py "SELECT 1;").
Proof.
  apply (@unique_block_entry ascii_only two_blocks
           [] [(py "B", py "-- comment" ++ nl :: py "SELECT 2;")]
           (py "A") (py "SELECT 1;" ++ [nl])).
  - by vm_compute.
  - compute_done.
  - compute_done.
Defined.

(** C2, as stated, fails on a marker in the middle of a line: the marker of
    [A] follows [SELECT 0; ] on its line and starts a block all the same. *)
Lemma marker_mid_line_counterexample :
  marker_mid_line
  = py "SELECT 0; " ++ py "-- Query: A" ++ nl :: py "SELECT 1;" ++ [nl] ∧
  @findall ascii_only pattern marker_mid_line = [ (py "A", py "SELECT 1;") ] ∧
  @parse_queries ascii_only marker_mid_line = {[ py "A" := py "SELECT 1;" ]}.
Proof. split_and!; by vm_compute. Qed.

Lemma marker_anywhere_witness :
  ∃ ws' body post,
    [] ++ nl :: py "SELECT 1;" ++ [nl] = ws' ++ nl :: body ++ post ∧
    spaces ws' ∧
    (py "A", body) ∈ @findall ascii_only pattern marker_mid_line.
Proof.
  apply (proj2 (@marker_anywhere ascii_only)
           (py "SELECT 0; ") (py "A") [] (py "SELECT 1;" ++ [nl])).
  - done.
  - compute_done.
  - constructor.
Defined.

Lemma entry_text_clean_witness :
  (∀ c, head (py "SELECT 2;") = Some c → is_space c = false) ∧
  (∀ c, last (py "SELECT 2;") = Some c → is_space c = false) ∧
  Forall (λ line, strip line ≠ [] ∧ startswith (py "--") (strip line) = false)
         (split_nl (py "SELECT 2;")).
Proof.
  apply (@entry_text_clean ascii_only two_blocks (py "B") (py "SELECT 2;")).
  by vm_compute.
Defined.

(** C5, as stated, fails when the last block of a name is left at the
    placeholder: the cleaned body of the last block [A] is [pass], and the
    mapping binds [A] to the query of the block before it. *)
Lemma last_block_placeholder_counterexample :
  @findall ascii_only pattern then_placeholder
  = [ (py "A", py "SELECT 1;" ++ [nl]); (py "A", py "pass") ] ∧
  clean (py "pass") = py "pass" ∧
  @parse_queries ascii_only then_placeholder !! py "A" = Some (py "SELECT 1;").
Proof. split_and!; by vm_compute. Qed.

Lemma last_implemented_block_wins_witness :
  @parse_queries ascii_only twice_implemented !! py "A" = Some (py "SELECT 2;").
Proof.
  apply (@last_implemented_block_wins ascii_only twice_implemented
           [(py "A", py "SELECT 1;" ++ [nl])] [] (py "A") (py "SELECT 2;")).
  - by vm_compute.
  - compute_done.
  - intros body' Hin. by apply elem_of_nil in Hin.
Defined.

Lemma missing_block_fails_assertion_witness :
  (@pytest_run ascii_only (test_body no_checks test_column_alias)
     (sample_world unfinished)).1
  = Failed (AssertionError (py "Query 'column_alias' not found or empty")) ∧
  contains (py "column_alias") (py "Query 'column_alias' not found or empty") = true.
Proof.
  apply (@missing_block_fails_assertion ascii_only no_checks
           test_column_alias unfinished (sample_world unfinished)).
  - compute_done.
  - by vm_compute.
  - intros body Hin.
    assert (Forall (λ b, b.1 = py "column_alias" → placeholder (clean b.2))
              (@findall ascii_only pattern unfinished)) as Hall.
    { compute_done. }
    exact (proj1 (Forall_forall _ _) Hall _ Hin eq_refl).
Defined.

Lemma parse_queries_total_witness :
  ∃ qs,
    @load_queries ascii_only (sample_world two_blocks) = (Ok qs, sample_world two_blocks) ∧
    qs = @parse_queries ascii_only two_blocks ∧
    ∀ name query, qs !! name = Some query →
                  name ≠ [] ∧ Forall (λ c, @is_word ascii_only c = true) name.
Proof.
  apply (@parse_queries_total ascii_only two_blocks (sample_world two_blocks)).
  by vm_compute.
Defined.

Lemma db_fixture_closes_witness :
  let w := sample_world two_blocks in
  ∃ conn w1,
    db_setup w = (Ok conn, w1) ∧
    connections w !! conn = None ∧
    connections w1 !! conn = Some (Connection seeded true) ∧
    match @queries ascii_only w1 with
    | (Ok qs, _) =>
        let '(r, w3) := failing_body conn qs w1 in
        @pytest_run ascii_only failing_body w =
          (match r with Ok _ => Passed | Raise e => Failed e end,
           (db_teardown conn w3).2)
    | (Raise e, _) =>
        @pytest_run ascii_only failing_body w = (SetupError e, (db_teardown conn w1).2)
    end ∧
    connections (@pytest_run ascii_only failing_body w).2 !! conn
    = Some (Connection ∅ false).
Proof.
  apply (@db_fixture_closes ascii_only failing_body (sample_world two_blocks)).
  intros conn qs w0 Hkept. exact Hkept.
Defined.

(** ** More on the extractor *)

Section Extraction.
Context `{Unicode}.

Lemma contains_eq (p s : text) :
  contains p s =
  startswith p s || match s with [] => false | _ :: rest => contains p rest end.
Proof. by destruct s. Qed.

Lemma contains_intro (p a b : text) : contains p (a ++ p ++ b) = true.
Proof.
  induction a as [|c a IH]; rewrite contains_eq.
  - cbn [app]. by rewrite startswith_app.
  - cbn [app]. rewrite IH. apply orb_true_r.
Qed.

Lemma contains_elim (p s : text) :
  contains p s = true → ∃ a b, s = a ++ p ++ b.
Proof.
  induction s as [|c s IH]; simpl.
  - rewrite orb_false_r. intros [b ->]%startswith_inv. by exists [], b.
  - intros [[b Hb]%startswith_inv|Hs]%orb_true_iff; [by exists [], b|].
    destruct (IH Hs) as (a & b & ->). by exists (c :: a), b.
Qed.

Lemma join_split (s : text) : join_nl (split_nl s) = s.
Proof.
  induction s as [|c s IH]; [done|]. simpl.
  pose proof (split_nl_nonempty s) as Hne.
  destruct (c =? nl) eqn:Hc.
  - apply N.eqb_eq in Hc as ->. rewrite join_nl_cons by done. by rewrite IH.
  - destruct (split_nl s) as [|l ls]; [done|].
    destruct ls as [|l' ls]; simpl in *; by rewrite <- IH.
Qed.

Lemma filter_all {A : Type} (P : A → Prop) `{∀ x, Decision (P x)} (l : list A) :
  Forall P l → filter P l = l.
Proof.
  induction 1 as [|x l Hx _ IH]; [done|].
  by rewrite filter_cons_True, IH.
Qed.

Lemma join_nl_part (ls : list text) (l : text) :
  l ∈ ls → ∃ a b, join_nl ls = a ++ l ++ b.
Proof.
  induction ls as [|l0 ls IH]; [by intros ?%elem_of_nil|].
  destruct ls as [|l1 ls].
  - intros ->%list_elem_of_singleton. exists [], []. by rewrite app_nil_r.
  - rewrite join_nl_cons by done. intros [->|Hl]%elem_of_cons.
    + by exists [], (nl :: join_nl (l1 :: ls)).
    + destruct (IH Hl) as (a & b & ->). exists (l0 ++ nl :: a), b.
      by rewrite <- app_assoc.
Qed.

(** A line of a text is a part of it. *)
Lemma split_nl_part (s l : text) : l ∈ split_nl s → ∃ a b, s = a ++ l ++ b.
Proof.
  intros Hl. destruct (join_nl_part _ _ Hl) as (a & b & Hj).
  rewrite join_split in Hj. by exists a, b.
Qed.

Lemma strip_part (s : text) : ∃ a b, s = a ++ strip s ++ b.
Proof.
  destruct (lstrip_spec s) as (a & Hs & _).
  destruct (rstrip_spec (lstrip s)) as (b & Hl & _).
  exists a, b. unfold strip. by rewrite <- Hl.
Qed.

(** A text without newline that occurs in a join occurs in one of the lines. *)
Lemma join_nl_occurrence (p : text) (ls : list text) (a b : text) :
  p ≠ [] → nl ∉ p → join_nl ls = a ++ p ++ b →
  ∃ l a' b', l ∈ ls ∧ l = a' ++ p ++ b'.
Proof.
  intros Hp Hnl. revert a b. induction ls as [|l0 ls IH]; intros a b Hj.
  - simpl in Hj. by destruct a, p.
  - destruct ls as [|l1 ls].
    { exists l0, a, b. split; [apply elem_of_cons; by left|done]. }
    rewrite join_nl_cons in Hj by done.
    apply app_eq_inv in Hj as [(k & Hl0 & Hk)|(k & -> & Hk)].
    + apply app_eq_inv in Hk as [(k2 & -> & Hk2)|(k2 & -> & _)].
      * destruct k2 as [|c k2].
        -- exists l0, a, []. rewrite Hl0, !app_nil_r.
           split; [apply elem_of_cons; by left|done].
        -- injection Hk2 as <- _. exfalso. apply Hnl.
           apply elem_of_app. right. apply elem_of_cons. by left.
      * exists l0, a, k2. rewrite Hl0.
        split; [apply elem_of_cons; by left|by rewrite <- ?app_assoc].
    + destruct k as [|c k].
      * destruct p as [|c p]; [done|]. injection Hk as <- _.
        exfalso. apply Hnl, elem_of_cons. by left.
      * injection Hk as _ Hk. destruct (IH k b Hk) as (l & a' & b' & Hl & ->).
        exists (a' ++ p ++ b'), a', b'. split; [apply elem_of_cons; by right|done].
Qed.

(** Cleaning brings in no text that the body does not hold. *)
Lemma clean_occurrence (p query_block : text) :
  p ≠ [] → nl ∉ p →
  contains p (clean query_block) = true → contains p query_block = true.
Proof.
  intros Hp Hnl (a & b & Hc)%contains_elim. unfold clean in Hc.
  set (ls := filter (λ line, keep_line line = true) (split_nl (strip query_block))) in *.
  destruct (strip_part (join_nl ls)) as (a0 & b0 & Hj). rewrite Hc in Hj.
  destruct (join_nl_occurrence p ls (a0 ++ a) (b ++ b0) Hp Hnl)
    as (l & a' & b' & Hl & ->); [by rewrite Hj, <- !app_assoc|].
  apply list_elem_of_filter in Hl as [_ Hl].
  apply split_nl_part in Hl as (a1 & b1 & Hs).
  destruct (strip_part query_block) as (a2 & b2 & ->). rewrite Hs.
  replace (a2 ++ (a1 ++ (a' ++ p ++ b') ++ b1) ++ b2)
    with ((a2 ++ a1 ++ a') ++ p ++ (b' ++ b1 ++ b2)) by (by rewrite <- !app_assoc).
  apply contains_intro.
Qed.

(** The lines of a stripped join are those joined, up to the white space
    around each. *)
Lemma strip_join_split (ls : list text) :
  ls ≠ [] →
  Forall (λ l, nl ∉ l) ls →
  Forall (λ l, strip l ≠ []) ls →
  strip <$> split_nl (strip (join_nl ls)) = strip <$> ls.
Proof.
  destruct ls as [|l1 ls]; [done|]. intros _.
  destruct ls as [|lk mid _] using rev_ind.
  - intros [Hnl _]%Forall_cons [Hne _]%Forall_cons.
    cbn [join_nl]. rewrite split_nl_line.
    + cbn [fmap list_fmap]. by rewrite strip_idemp.
    + by apply rstrip_no_nl, lstrip_no_nl.
  - intros [Hnl1 [Hnlm [Hnlk _]%Forall_cons]%Forall_app]%Forall_cons.
    intros [Hne1 [_ [Hnek _]%Forall_cons]%Forall_app]%Forall_cons.
    apply strip_nonempty in Hne1 as [Hne1 _].
    apply strip_nonempty in Hnek as [_ Hnek].
    assert (mid ++ [lk] ≠ []) as Hmid by (by destruct mid).
    assert (strip (join_nl (l1 :: mid ++ [lk]))
            = join_nl ((lstrip l1 :: mid) ++ [rstrip lk])) as ->.
    { unfold strip. rewrite join_nl_cons, lstrip_app by done.
      rewrite <- join_nl_cons by done.
      change (lstrip l1 :: mid ++ [lk]) with ((lstrip l1 :: mid) ++ [lk]).
      rewrite !join_nl_snoc by done.
      change (nl :: lk) with ([nl] ++ lk). rewrite app_assoc, rstrip_app by done.
      by rewrite <- app_assoc. }
    rewrite split_join.
    + cbn [app fmap list_fmap]. rewrite !fmap_app. cbn [fmap list_fmap].
      by rewrite strip_lstrip, strip_rstrip.
    + by destruct mid.
    + apply Forall_app. split; [constructor|repeat constructor].
      * by apply lstrip_no_nl.
      * done.
      * by apply rstrip_no_nl.
Qed.

Lemma clean_nil : clean [] = [].
Proof. reflexivity. Qed.

Lemma clean_stripped (query_block : text) : strip (clean query_block) = clean query_block.
Proof. unfold clean. apply strip_idemp. Qed.

(** X1.  A text in which [-- Query: ] occurs nowhere has no block: the
    extractor returns the empty mapping. *)
Theorem no_marker_no_entry (content : text) :
  contains (py "-- Query: ") content = false →
  findall pattern content = [] ∧ parse_queries content = ∅.
Proof.
  intros Hno.
  assert (findall pattern content = []) as Hnil.
  { destruct (findall pattern content) as [|[name body] bs] eqn:Hf; [done|].
    destruct (findall_inv content name body) as (pre & ws & s4 & -> & _).
    { rewrite Hf. apply elem_of_cons. by left. }
    by rewrite contains_intro in Hno. }
  split; [done|]. unfold parse_queries. by rewrite Hnil.
Qed.

(** X2.  No entry of the returned mapping holds the empty string or the
    placeholder [pass]: a name is either absent or bound to a query. *)
Theorem entry_is_implemented (content name query : text) :
  parse_queries content !! name = Some query →
  query ≠ [] ∧ query ≠ py "pass".
Proof.
  intros [Hq|(body & _ & _ & Hi)]%foldl_store_inv; [by rewrite lookup_empty in Hq|].
  apply implemented_true in Hi. unfold placeholder in Hi. split; intros ->; apply Hi; auto.
Qed.

(** A cleaned query has nothing left to clean. *)
Lemma clean_fixed (query_block : text) :
  clean (clean query_block) = clean query_block.
Proof.
  destruct (decide (clean query_block = [])) as [->|Hne]; [apply clean_nil|].
  pose proof (clean_lines query_block Hne) as Hlines.
  set (v := clean query_block) in *.
  assert (strip v = v) as Hv by apply clean_stripped.
  unfold clean. rewrite Hv, filter_all.
  - by rewrite join_split.
  - eapply Forall_impl; [exact Hlines|]. intros l Hl. by apply keep_line_true.
Qed.

(** X3.  Cleaning is idempotent: a cleaned query goes through the cleaning
    unchanged, and so does every query of a returned mapping. *)
Theorem clean_idempotent :
  (∀ query_block : text, clean (clean query_block) = clean query_block) ∧
  (∀ content name query : text,
     parse_queries content !! name = Some query → clean query = query).
Proof.
  split; [apply clean_fixed|].
  intros content name query [Hq|(body & _ & -> & _)]%foldl_store_inv;
    [by rewrite lookup_empty in Hq|].
  apply clean_fixed.
Qed.

(** X4.  When the cleaned query is not empty, its lines are, up to the white
    space around each, the lines of the stripped body that are neither blank
    nor comments, in the same order. *)
Theorem clean_keeps_lines (query_block : text) :
  clean query_block ≠ [] →
  strip <$> split_nl (clean query_block)
  = strip <$> filter (λ line, keep_line line = true) (split_nl (strip query_block)).
Proof.
  unfold clean.
  set (ls := filter (λ line, keep_line line = true) (split_nl (strip query_block))).
  intros Hne. apply strip_join_split.
  - intros Hnil. by rewrite Hnil in Hne.
  - apply Forall_forall. intros l [_ Hl]%list_elem_of_filter.
    by apply (proj1 (Forall_forall _ _) (split_nl_lines (strip query_block))).
  - apply Forall_forall. intros l [Hl _]%list_elem_of_filter.
    by apply keep_line_true in Hl as [? _].
Qed.

Lemma scan_skip (r : regex) (a b : text) : scan r (length a) (a ++ b) = scan r 0 b.
Proof. induction a as [|c a IH]; [done|]. apply IH. Qed.

(** After a match the scan goes on where the match ended. *)
Lemma scan_match (r : regex) (a rest : text) (caps : gmap nat text) :
  a ≠ [] →
  match_here r (a ++ rest) = Some (rest, caps) →
  scan r 0 (a ++ rest) = caps :: scan r 0 rest.
Proof.
  intros Ha Hm. destruct a as [|c a]; [done|].
  cbn [app scan] in *. rewrite Hm. f_equal.
  cbn [length]. rewrite length_app.
  replace (S (length a + length rest) - length rest - 1)%nat with (length a) by lia.
  apply scan_skip.
Qed.

Lemma scan_newline : scan pattern 0 [nl] = [].
Proof.
  cbn [scan]. by rewrite match_here_pattern.
Qed.

(** A query without [-- Query:] is a body that ends with the text. *)
Lemma body_split_query (q : text) :
  contains (py "-- Query:") q = false →
  body_split (q ++ [nl]) = (q, [nl]).
Proof.
  intros Hno.
  assert (∀ q1 q2, q = q1 ++ q2 → q2 ≠ [] → ahead (q2 ++ [nl]) = false) as Hin.
  { intros q1 q2 -> Hq2. unfold ahead. apply orb_false_iff. split.
    - destruct (startswith (py "-- Query:") (q2 ++ [nl])) eqn:Hs; [|done].
      apply startswith_inv in Hs as [t Ht].
      destruct t as [|x t _] using rev_ind.
      + rewrite app_nil_r in Ht.
        change (py "-- Query:") with (py "-- Query" ++ [58]) in Ht.
        by apply app_inj_tail in Ht as [_ [=]].
      + rewrite app_assoc in Ht. apply app_inj_tail in Ht as [-> _].
        by rewrite contains_intro in Hno.
    - destruct q2 as [|c [|c' q2]]; done. }
  clear Hno. induction q as [|c q IH]; [done|].
  pose proof (Hin [] (c :: q) eq_refl) as Hc.
  cbn [app] in *. rewrite body_split_eq, Hc by done.
  rewrite IH; [done|]. intros q1 q2 -> Hq2. by apply (Hin (c :: q1) q2).
Qed.

(** X5.  An entry of the returned mapping, written back as a block (its
    marker line, the query, a newline) and extracted again, gives the
    mapping with that entry alone. *)
Theorem entry_round_trip (content name query : text) :
  parse_queries content !! name = Some query →
  parse_queries (py "-- Query: " ++ name ++ nl :: query ++ [nl]) = {[ name := query ]}.
Proof.
  intros [Hq|(body & Hin & -> & Hi)]%foldl_store_inv; [by rewrite lookup_empty in Hq|].
  apply findall_inv in Hin as (pre & ws & s4 & _ & Hne & Hname & _ & ->).
  set (body := (body_split s4).1) in *. set (q := clean body) in *.
  assert (contains (py "-- Query:") body = false) as Hbody.
  { destruct (contains (py "-- Query:") body) eqn:Hc; [|done].
    apply contains_elim in Hc as (a & b & Hab).
    pose proof (body_split_first s4 a (py "-- Query:" ++ b) Hab) as Hno.
    unfold ahead in Hno. rewrite <- app_assoc, startswith_app in Hno.
    by discriminate Hno. }
  assert (contains (py "-- Query:") q = false) as Hquery.
  { destruct (contains (py "-- Query:") q) eqn:Hc; [|done].
    apply clean_occurrence in Hc; [congruence|done|compute_done]. }
  assert (q ≠ []) as Hq by (intros Hnil; by rewrite Hnil in Hi).
  assert (∀ c, head q = Some c → is_space c = false) as Hhead by apply strip_head.
  destruct (match_here_marker name [] (q ++ [nl]) Hne Hname)
    as (ws' & s4' & Hsplit & Hws' & Hm); [constructor|].
  assert (ws' = [] ∧ s4' = q ++ [nl]) as [-> ->].
  { cbn [app] in Hsplit. destruct ws' as [|c ws']; [by injection Hsplit|].
    exfalso. injection Hsplit as <- Hsplit.
    apply Forall_cons in Hws' as [_ Hws'].
    destruct q as [|d q']; [done|]. pose proof (Hhead d eq_refl) as Hd.
    destruct ws' as [|e ws']; injection Hsplit as -> _; [done|].
    apply Forall_cons in Hws' as [He _]. congruence. }
  rewrite (body_split_query q Hquery) in Hm. cbn [fst snd app] in Hm.
  unfold parse_queries, findall.
  replace (py "-- Query: " ++ name ++ nl :: q ++ [nl])
    with ((py "-- Query: " ++ name ++ nl :: q) ++ [nl]) in *
    by (by rewrite <- !app_assoc).
  rewrite (scan_match pattern _ [nl] _) by (done || exact Hm).
  rewrite scan_newline. cbn [fmap list_fmap foldl].
  destruct (groups_of_match name q) as [-> ->].
  unfold store. cbn [fst snd].
  assert (clean q = q) as -> by apply clean_fixed.
  rewrite Hi. apply insert_empty.
Qed.

End Extraction.

(** ** More on the fixtures and the tests *)

Section Running.
Context `{Unicode}.
Variable checks : test_case → nat → text → M unit.

(** X6.  A test leaves behind nothing but its own closed connection: when
    the body of the test does not change the world, the files and every
    connection made before the test are after it as they were before, and
    the connection of the test is there, closed and emptied. *)
Theorem test_leaves_only_closed_connection
    (body : nat → gmap text text → M unit) (w : world) :
  (∀ conn qs w0, (body conn qs w0).2 = w0) →
  let w' := (pytest_run body w).2 in
  let conn := fresh (dom (connections w)) in
  files w' = files w ∧
  connections w' !! conn = Some (Connection ∅ false) ∧
  ∀ h, h ≠ conn → connections w' !! h = connections w !! h.
Proof.
  intros Hbody w' conn. subst w'.
  destruct (db_setup_ok w) as [_ Hsetup]. fold conn in Hsetup.
  unfold pytest_run. rewrite Hsetup. unfold queries. rewrite load_queries_eq.
  cbn [files].
  set (w1 := World (files w) (<[conn := Connection seeded true]> (connections w))).
  assert (files (db_teardown conn w1).2 = files w ∧
          connections (db_teardown conn w1).2 !! conn = Some (Connection ∅ false) ∧
          ∀ h, h ≠ conn →
               connections (db_teardown conn w1).2 !! h = connections w !! h) as Hdown.
  { unfold db_teardown, close, w1. cbn [snd files connections]. split_and!; [done| |].
    - by rewrite lookup_alter_eq, lookup_insert_eq.
    - intros h Hh. by rewrite lookup_alter_ne, lookup_insert_ne. }
  destruct (files w !! "exercise.sql") as [content|]; [|exact Hdown].
  pose proof (Hbody conn (parse_queries content) w1) as Hsame.
  destruct (body conn (parse_queries content) w1) as [r w3].
  cbn [snd] in *. by subst w3.
Qed.

(** X7.  Without the file [exercise.sql] no test body runs: every test ends
    in a setup error that carries the [FileNotFoundError] of the read. *)
Theorem missing_file_is_setup_error
    (body : nat → gmap text text → M unit) (w : world) :
  files w !! "exercise.sql" = None →
  (pytest_run body w).1 = SetupError (FileNotFoundError "exercise.sql").
Proof.
  intros Hfile. destruct (db_setup_ok w) as [_ Hsetup].
  unfold pytest_run. rewrite Hsetup. unfold queries. rewrite load_queries_eq.
  cbn [files]. by rewrite Hfile.
Qed.

(** X8.  A test whose block holds a query gets past its guard: the checks of
    the test run on the fixture's connection with the cleaned text of the
    last block of that name that holds a query, and the report of the test
    is theirs. *)
Theorem implemented_block_runs_checks (t : test_case) (content : text)
    (pre post : list (text * text)) (body : text) (w : world) :
  files w !! "exercise.sql" = Some content →
  findall pattern content = pre ++ (py (block t), body) :: post →
  ¬ placeholder (clean body) →
  (∀ body', (py (block t), body') ∈ post → placeholder (clean body')) →
  ∃ conn w1,
    db_setup w = (Ok conn, w1) ∧
    (pytest_run (test_body checks t) w).1 =
      match (checks t conn (clean body) w1).1 with
      | Ok _ => Passed
      | Raise e => Failed e
      end.
Proof.
  intros Hfile Hblocks Himpl Hpost.
  destruct (db_setup_ok w) as [_ Hsetup]. eexists _, _. split; [exact Hsetup|].
  unfold pytest_run. rewrite Hsetup. unfold queries. rewrite load_queries_eq.
  cbn [files]. rewrite Hfile. unfold test_body.
  apply implemented_true in Himpl.
  unfold parse_queries. rewrite Hblocks, foldl_store_last; [|done|].
  2:{ intros body' Hin. by apply implemented_false, Hpost. }
  assert (truthy (clean body) = true) as ->.
  { unfold implemented in Himpl. by apply andb_true_iff in Himpl as [? _]. }
  by destruct (checks _ _ _ _) as [[?|?] ?].
Qed.

End Running.

(** ** The assertions on the rows *)

(** The six columns of [products]. *)
Lemma six_columns_NoDup :
  NoDup ["id"; "name"; "category"; "price"; "quantity"; "is_active"].
Proof. compute_done. Qed.

(** X9.  The assertions of [test_select_all_columns] hold exactly when 8 rows
    were fetched and the columns of the first row are the six columns of
    [products], each once, in any order; the values and the other rows are
    not looked at. *)
Theorem select_all_columns_asserts_pass (results : list result_row) :
  select_all_columns_asserts results = Pass ↔
  length results = 8%nat ∧
  ∃ first rest,
    results = first :: rest ∧
    first.*1 ≡ₚ ["id"; "name"; "category"; "price"; "quantity"; "is_active"].
Proof.
  unfold select_all_columns_asserts, check. split.
  - case_bool_decide as Hlen; [|done]. destruct results as [|first rest]; [done|].
    cbv zeta.
    repeat (case_bool_decide; [|done]). intros _.
    split; [done|]. exists first, rest. split; [done|].
    symmetry. apply submseteq_length_Permutation; [|simpl; lia].
    apply NoDup_submseteq; [apply six_columns_NoDup|].
    intros x Hx. repeat (apply elem_of_cons in Hx as [->|Hx]; [done|]).
    by apply elem_of_nil in Hx.
  - intros (Hlen & first & rest & -> & Hperm).
    rewrite bool_decide_eq_true_2 by done. cbv zeta.
    rewrite bool_decide_eq_true_2 by (by rewrite Hperm).
    rewrite !bool_decide_eq_true_2; [done|rewrite Hperm; compute_done..].
Qed.

(** X10.  The assertions of [test_distinct_categories] hold exactly when two
    rows were fetched whose first values are [Electronics] and [Furniture],
    in either order. *)
Theorem distinct_categories_asserts_pass (results : list result_row) :
  distinct_categories_asserts results = Pass ↔
  ∃ row1 row2 c1 c2,
    results = [row1; row2] ∧
    head row1.*2 = Some c1 ∧ head row2.*2 = Some c2 ∧
    ((c1 = VText "Electronics" ∧ c2 = VText "Furniture") ∨
     (c1 = VText "Furniture" ∧ c2 = VText "Electronics")).
Proof.
  unfold distinct_categories_asserts, check. split.
  - case_bool_decide as Hlen; [|done].
    destruct results as [|row1 [|row2 [|]]]; try done. clear Hlen.
    cbn [mapM]. destruct (head row1.*2) as [c1|] eqn:H1; [|done].
    destruct (head row2.*2) as [c2|] eqn:H2; [|done]. simpl.
    case_bool_decide as HE; [|done]. case_bool_decide as HF; [|done]. intros _.
    exists row1, row2, c1, c2. split_and!; [done..|].
    apply elem_of_cons in HE as [<-|HE%list_elem_of_singleton];
      apply elem_of_cons in HF as [HF|HF%list_elem_of_singleton]; subst; auto; done.
  - intros (row1 & row2 & c1 & c2 & -> & H1 & H2 & Hc).
    rewrite bool_decide_eq_true_2 by done. cbn [mapM]. rewrite H1, H2. simpl.
    destruct Hc as [[-> ->]|[-> ->]]; by rewrite !bool_decide_eq_true_2 by compute_done.
Qed.

(** ** The reference solutions *)

Section DataStructuresFacts.
Context `{Countable A}.

Lemma count_occurrences_from (items : list A) (counts : gmap A nat) (x : A) :
  foldl (λ counts item, <[item := (default 0 (counts !! item) + 1)%nat]> counts)
        counts items !! x
  = if decide (x ∈ items)
    then Some (default 0 (counts !! x) + length (filter (λ y, y = x) items))%nat
    else counts !! x.
Proof.
  revert counts. induction items as [|y items IH]; intros counts.
  - by rewrite decide_False by apply not_elem_of_nil.
  - cbn [foldl]. rewrite IH. destruct (decide (y = x)) as [->|Hne].
    + rewrite lookup_insert_eq, filter_cons_True by done.
      rewrite (decide_True (P := x ∈ x :: items)) by (apply elem_of_cons; by left).
      cbn [default from_option length id]. destruct (decide (x ∈ items)) as [Hin|Hout].
      * f_equal. lia.
      * f_equal. assert (filter (λ y, y = x) items = []) as ->; [|simpl; lia].
        destruct (filter (λ y, y = x) items) as [|z l] eqn:Hf; [done|].
        assert (z ∈ filter (λ y, y = x) items) as [-> ?]%list_elem_of_filter; [|done].
        rewrite Hf. apply elem_of_cons. by left.
    + rewrite lookup_insert_ne, filter_cons_False by done.
      destruct (decide (x ∈ items)) as [Hin|Hout].
      * by rewrite decide_True by (apply elem_of_cons; by right).
      * rewrite decide_False; [done|]. by intros [->|?]%elem_of_cons.
Qed.

(** X11.  [count_occurrences] binds every item of the list to the number of
    its occurrences, and nothing else. *)
Theorem count_occurrences_lookup (items : list A) (x : A) :
  count_occurrences items !! x
  = if decide (x ∈ items) then Some (length (filter (λ y, y = x) items)) else None.
Proof.
  unfold count_occurrences. rewrite count_occurrences_from, lookup_empty.
  by destruct (decide (x ∈ items)).
Qed.

(** The loop of [remove_duplicates] only appends to its result. *)
Lemma remove_duplicates_loop_snoc (items : list A) (x : A) :
  remove_duplicates_loop (items ++ [x])
  = let '(seen, result) := remove_duplicates_loop items in
    if decide (x ∈ seen) then (seen, result) else ({[x]} ∪ seen, result ++ [x]).
Proof. unfold remove_duplicates_loop. rewrite foldl_snoc. by destruct (foldl _ _ _). Qed.

Lemma remove_duplicates_loop_inv (items : list A) :
  let '(seen, result) := remove_duplicates_loop items in
  (∀ x, x ∈ seen ↔ x ∈ result) ∧
  NoDup result ∧
  (∀ x, x ∈ result ↔ x ∈ items) ∧
  sublist result items.
Proof.
  induction items as [|x items IH] using rev_ind.
  - cbn. split_and!; [set_solver|constructor|done|done].
  - rewrite remove_duplicates_loop_snoc.
    destruct (remove_duplicates_loop items) as [seen result].
    destruct IH as (Hseen & Hnodup & Helem & Hsub).
    destruct (decide (x ∈ seen)) as [Hin|Hout].
    + split_and!; [done..| |].
      * intros y. rewrite elem_of_app, list_elem_of_singleton, <- Helem.
        split; [by left|]. intros [?| ->]; [done|]. by apply Hseen.
      * by apply sublist_inserts_r.
    + split_and!.
      * intros y. rewrite elem_of_union, elem_of_singleton, elem_of_app,
          list_elem_of_singleton, Hseen. tauto.
      * apply NoDup_app. split_and!; [done| |apply NoDup_singleton].
        intros y Hy ->%list_elem_of_singleton. by apply Hout, Hseen.
      * intros y. by rewrite !elem_of_app, Helem.
      * by apply sublist_app.
Qed.

Lemma remove_duplicates_grows (l1 l2 : list A) :
  remove_duplicates l1 `prefix_of` remove_duplicates (l1 ++ l2).
Proof.
  unfold remove_duplicates.
  induction l2 as [|x l2 IH] using rev_ind; [by rewrite app_nil_r|].
  rewrite app_assoc, remove_duplicates_loop_snoc.
  destruct (remove_duplicates_loop (l1 ++ l2)) as [seen result].
  destruct (decide (x ∈ seen)); [done|]. by apply prefix_app_r.
Qed.

(** X12.  [remove_duplicates] returns the items of the list, each once, in
    the order of their first occurrences: the result has no duplicate, has
    the elements of the list, is a sublist of it, and the result for a
    prefix of the list is a prefix of the result for the list. *)
Theorem remove_duplicates_first_occurrences (items : list A) :
  NoDup (remove_duplicates items) ∧
  (∀ x, x ∈ remove_duplicates items ↔ x ∈ items) ∧
  sublist (remove_duplicates items) items ∧
  (∀ l1 l2, items = l1 ++ l2 →
            remove_duplicates l1 `prefix_of` remove_duplicates items).
Proof.
  pose proof (remove_duplicates_loop_inv items) as Hinv. unfold remove_duplicates.
  destruct (remove_duplicates_loop items) as [seen result] eqn:Hloop.
  destruct Hinv as (_ & Hnodup & Helem & Hsub). split_and!; [done..|].
  intros l1 l2 ->. pose proof (remove_duplicates_grows l1 l2) as Hp.
  unfold remove_duplicates in Hp. by rewrite Hloop in Hp.
Qed.

Section Groups.
Context {B : Type}.
Variable key_func : B → A.

Lemma group_by_key_from (items : list B) (groups : gmap A (list B)) (k : A) :
  foldl (λ groups item,
           let key := key_func item in
           let groups' :=
             match groups !! key with
             | None => <[key := []]> groups
             | Some _ => groups
             end in
           alter (λ group, group ++ [item]) key groups')
        groups items !! k
  = match filter (λ x, key_func x = k) items with
    | [] => groups !! k
    | group => Some (default [] (groups !! k) ++ group)
    end.
Proof.
  revert groups. induction items as [|y items IH]; intros groups; [done|].
  cbn [foldl]. rewrite IH. cbv zeta. destruct (decide (key_func y = k)) as [<-|Hne].
  - rewrite filter_cons_True by done. rewrite lookup_alter_eq.
    destruct (groups !! key_func y) as [group|] eqn:Hg.
    + rewrite Hg. cbn. destruct (filter _ items); [done|]. by rewrite <- app_assoc.
    + rewrite lookup_insert_eq. cbn. by destruct (filter _ items).
  - rewrite filter_cons_False by done. rewrite lookup_alter_ne by done.
    destruct (groups !! key_func y); [done|]. by rewrite lookup_insert_ne.
Qed.

(** X13.  [group_by_key] binds a key to the items of the list that have this
    key, in the order of the list; a key that no item has is absent. *)
Theorem group_by_key_lookup (items : list B) (k : A) :
  group_by_key items key_func !! k
  = match filter (λ x, key_func x = k) items with
    | [] => None
    | group => Some group
    end.
Proof.
  unfold group_by_key. rewrite group_by_key_from, lookup_empty.
  by destruct (filter _ items).
Qed.

End Groups.

Section Inversion.
Context {B : Type}.

Lemma invert_dictionary_skip (d : list (B * A)) (inverted : gmap A B) (v : A) :
  v ∉ d.*2 →
  foldl (λ inverted kv, <[kv.2 := kv.1]> inverted) inverted d !! v = inverted !! v.
Proof.
  revert inverted. induction d as [|[k' v'] d IH]; intros inverted Hv; [done|].
  cbn in Hv. apply not_elem_of_cons in Hv as [Hne Hv].
  cbn [foldl]. rewrite IH by done. by rewrite lookup_insert_ne.
Qed.

(** X14.  [invert_dictionary] binds a value to the key of the last item that
    has this value: when a value comes with several keys, the later key
    replaces the earlier ones without notice. *)
Theorem invert_dictionary_last (pre post : list (B * A)) (k : B) (v : A) :
  v ∉ post.*2 →
  invert_dictionary (pre ++ (k, v) :: post) !! v = Some k.
Proof.
  intros Hv. unfold invert_dictionary. rewrite foldl_app. cbn [foldl].
  rewrite invert_dictionary_skip by done. apply lookup_insert_eq.
Qed.

(** X15.  On a dictionary whose values are all different, [invert_dictionary]
    is the converse of the dictionary: it binds [v] to [k] exactly when the
    dictionary has the item [(k, v)]. *)
Theorem invert_dictionary_converse (d : list (B * A)) (k : B) (v : A) :
  NoDup d.*2 →
  invert_dictionary d !! v = Some k ↔ (k, v) ∈ d.
Proof.
  intros Hnodup.
  assert (∀ k', (k', v) ∈ d → invert_dictionary d !! v = Some k') as Hin.
  { intros k' (pre & post & ->)%list_elem_of_split.
    unfold invert_dictionary. rewrite foldl_app. cbn [foldl].
    rewrite invert_dictionary_skip; [apply lookup_insert_eq|].
    rewrite fmap_app in Hnodup. apply NoDup_app in Hnodup as (_ & _ & Hpost).
    cbn in Hpost. by apply NoDup_cons in Hpost as [? _]. }
  split; [|apply Hin].
  intros Hk. destruct (decide (v ∈ d.*2)) as [Hv|Hv].
  - apply list_elem_of_fmap in Hv as ([k' v'] & -> & Hkv).
    rewrite (Hin k' Hkv) in Hk. by injection Hk as <-.
  - unfold invert_dictionary in Hk.
    by rewrite invert_dictionary_skip, lookup_empty in Hk.
Qed.

End Inversion.

End DataStructuresFacts.

Lemma find_maximum_from (rest : list Z) (first : Z) :
  let m := foldl (λ maximum num, if (maximum <? num)%Z then num else maximum) first rest in
  m ∈ first :: rest ∧ ∀ x, x ∈ first :: rest → (x ≤ m)%Z.
Proof.
  revert first. induction rest as [|y rest IH]; intros first; cbn [foldl].
  - split; [apply elem_of_cons; by left|].
    intros x ->%list_elem_of_singleton. lia.
  - cbv zeta. destruct (Z.ltb_spec first y) as [Hlt|Hge].
    + destruct (IH y) as [Hin Hmax]. split; [apply elem_of_cons; by right|].
      intros x [->|Hx]%elem_of_cons; [|by apply Hmax].
      specialize (Hmax y (proj2 (elem_of_cons _ _ _) (or_introl eq_refl))). lia.
    + destruct (IH first) as [Hin Hmax]. split.
      * apply elem_of_cons in Hin as [->|Hin]; [apply elem_of_cons; by left|].
        apply elem_of_cons. right. apply elem_of_cons. by right.
      * intros x [->|[->|Hx]%elem_of_cons]%elem_of_cons.
        -- apply Hmax, elem_of_cons. by left.
        -- specialize (Hmax first (proj2 (elem_of_cons _ _ _) (or_introl eq_refl))). lia.
        -- apply Hmax, elem_of_cons. by right.
Qed.

(** X16.  [find_maximum] returns [None] on the empty list and on it alone;
    otherwise it returns an element of the list that no element exceeds. *)
Theorem find_maximum_spec (numbers : list Z) :
  (find_maximum numbers = None ↔ numbers = []) ∧
  ∀ m, find_maximum numbers = Some m →
       m ∈ numbers ∧ ∀ x, x ∈ numbers → (x ≤ m)%Z.
Proof.
  destruct numbers as [|first rest]; cbn [find_maximum].
  - split; [done|]. intros m [=].
  - split; [done|]. intros m [= <-]. apply find_maximum_from.
Qed.

(** ** The further properties on sample inputs *)

Lemma no_marker_no_entry_witness :
  @findall ascii_only pattern (py "SELECT 1;") = [] ∧
  @parse_queries ascii_only (py "SELECT 1;") = ∅.
Proof.
  apply (@no_marker_no_entry ascii_only (py "SELECT 1;")). reflexivity.
Defined.

Lemma entry_is_implemented_witness :
  py "SELECT 1;" ≠ [] ∧ py "SELECT 1;" ≠ py "pass".
Proof.
  apply (@entry_is_implemented ascii_only two_blocks (py "A") (py "SELECT 1;")).
  by vm_compute.
Defined.

Lemma clean_idempotent_witness :
  clean (py "SELECT 2;") = py "SELECT 2;".
Proof.
  apply (proj2 (@clean_idempotent ascii_only) two_blocks (py "B") (py "SELECT 2;")).
  by vm_compute.
Defined.

Lemma clean_keeps_lines_witness :
  strip <$> split_nl (clean (py "-- comment" ++ nl :: py "  SELECT 2;"))
  = strip <$> filter (λ line, keep_line line = true)
                (split_nl (strip (py "-- comment" ++ nl :: py "  SELECT 2;"))).
Proof.
  apply (clean_keeps_lines (py "-- comment" ++ nl :: py "  SELECT 2;")).
  compute_done.
Defined.

Lemma entry_round_trip_witness :
  @parse_queries ascii_only (py "-- Query: " ++ py "B" ++ nl :: py "SELECT 2;" ++ [nl])
  = {[ py "B" := py "SELECT 2;" ]}.
Proof.
  apply (@entry_round_trip ascii_only two_blocks (py "B") (py "SELECT 2;")).
  by vm_compute.
Defined.

Lemma test_leaves_only_closed_connection_witness :
  let w := sample_world two_blocks in
  let w' := (@pytest_run ascii_only idle_body w).2 in
  let conn := fresh (dom (connections w)) in
  files w' = files w ∧
  connections w' !! conn = Some (Connection ∅ false) ∧
  ∀ h, h ≠ conn → connections w' !! h = connections w !! h.
Proof.
  apply (@test_leaves_only_closed_connection ascii_only idle_body
           (sample_world two_blocks)).
  reflexivity.
Defined.

Lemma missing_file_is_setup_error_witness :
  (@pytest_run ascii_only idle_body (World ∅ ∅)).1
  = SetupError (FileNotFoundError "exercise.sql").
Proof.
  apply (@missing_file_is_setup_error ascii_only idle_body (World ∅ ∅)).
  reflexivity.
Defined.

Lemma implemented_block_runs_checks_witness :
  ∃ conn w1,
    db_setup (sample_world finished) = (Ok conn, w1) ∧
    (@pytest_run ascii_only (test_body no_checks test_column_alias)
       (sample_world finished)).1 =
      match (no_checks test_column_alias conn
               (clean (py "SELECT price AS cost FROM products;")) w1).1 with
      | Ok _ => Passed
      | Raise e => Failed e
      end.
Proof.
  apply (@implemented_block_runs_checks ascii_only no_checks test_column_alias
           finished [] [] (py "SELECT price AS cost FROM products;")
           (sample_world finished)).
  - by vm_compute.
  - by vm_compute.
  - intros [Hp|Hp]; by vm_compute in Hp.
  - intros body' Hin. by apply elem_of_nil in Hin.
Defined.

Lemma invert_dictionary_last_witness :
  invert_dictionary ([(1%nat, 7%nat)] ++ (2%nat, 7%nat) :: [(3%nat, 8%nat)]) !! 7%nat
  = Some 2%nat.
Proof.
  apply (invert_dictionary_last [(1%nat, 7%nat)] [(3%nat, 8%nat)] 2%nat 7%nat).
  compute_done.
Defined.

Lemma invert_dictionary_converse_witness :
  invert_dictionary [(1%nat, 7%nat); (3%nat, 8%nat)] !! 8%nat = Some 3%nat
  ↔ (3%nat, 8%nat) ∈ [(1%nat, 7%nat); (3%nat, 8%nat)].
Proof.
  apply (invert_dictionary_converse [(1%nat, 7%nat); (3%nat, 8%nat)] 3%nat 8%nat).
  compute_done.
Defined.
